(** * logtail: a shallow embedding of [src/logtail.py] and of the viewer
    [src/logtail_gui.py]

    The development follows the source top-down. The command-line tool comes
    first; the viewer ([Gui]) is introduced where its definitions begin.

    - [Py] holds the few Python library operations the program relies on
      (text-mode [readline] and [readlines] on a file handle, list slicing,
      [int] and [float] conversion of command-line tokens).
    - [Eff] is the effect model: a trace of output events together with either
      a value or a raised exception.
    - The top level holds the program itself: [loop_body] (the body of the
      [while True] loop), [follow] (the loop unrolled over a script of polls),
      [initial_phase], [tail_file] and [main].

    Modelling decisions.

    - A file is the sequence of characters the text layer delivers, and a
      handle is its read position, an offset into that sequence. This is what
      Python does on [plain] text: ASCII with no carriage return. There the
      text layer delivers the bytes as they are and [tell] returns the byte
      offset. On other content it does not: a carriage return is translated
      to a newline, bytes that are no UTF-8 are replaced, and [tell] returns
      an opaque number that may exceed any file size. The theorems about
      offsets and about the content printed assume [plain] text.
    - Every read observes the file behind the open handle as it is on disk at
      the moment of the call; the text layer's read-ahead buffer is not
      modelled. This is what Python does as long as the file only receives
      appends, and after a change in place that happens while the handle has
      nothing buffered (it has read up to the end of the file, or has just
      been repositioned). The theorems about truncation assume such a state.
      A file put in place of the old one under the same name is another
      file: the handle stays on the one it opened.
    - [print] is taken not to fail.
    - The outside world (writers appending to or truncating the file, I/O
      faults, the interrupt key) acts through the replies to the system calls
      the program makes: each call that looks at the world receives either a
      value or an exception.  A [poll] bundles the replies for one iteration
      of the loop, an [environment] those for a whole session.
    - The loop never returns by itself.  A run over a finite script of polls
      yields [Ok cursor] when the script is exhausted and the session is still
      alive, or [Raise (SystemExit code)] when the process has exited. *)

From Stdlib Require Import Ascii String.
From Stdlib Require Import List Arith ZArith Lia Bool QArith.
Import ListNotations.
Local Close Scope Q_scope.
Local Open Scope nat_scope.

(** ** Python library operations *)

Module Py.

(** Decoded file content, and a line as [readline] returns it. *)
Definition text := list ascii.

Definition newline : ascii := "010"%char.

Definition is_newline (c : ascii) : bool := Ascii.eqb c newline.

(** What [readline] returns when [s] is what lies ahead of the handle: the
    characters up to and including the first newline, or all of [s] when it
    holds no newline (so an unterminated tail is returned as it stands, and
    the empty text only at end of file). *)
Fixpoint take_line (s : text) : text :=
  match s with
  | [] => []
  | c :: s' => if is_newline c then [c] else c :: take_line s'
  end.

(** [file.readline()] with the handle at [pos] on a file holding [f]: the
    line, and the handle's new position. Past the end of the file nothing is
    read and the position stays. Exact on [plain] text; carriage returns and
    bytes outside ASCII are not given the treatment of the text layer. *)
Definition readline (f : text) (pos : nat) : text * nat :=
  let line := take_line (skipn pos f) in
  (line, pos + length line).

(** [file.readlines()] on what lies ahead of the handle: every line with its
    terminator, the last one unterminated when the file does not end in a
    newline. *)
Fixpoint readlines (s : text) : list text :=
  match s with
  | [] => []
  | c :: s' =>
      if is_newline c then [c] :: readlines s'
      else match readlines s' with
           | [] => [[c]]
           | l :: ls => (c :: l) :: ls
           end
  end.

(** [l[start:]]: a negative [start] counts from the end, and both ends are
    clamped to the list. *)
Definition slice_from {A : Type} (l : list A) (start : Z) : list A :=
  let n := Z.of_nat (length l) in
  let i := if (start <? 0)%Z then Z.max 0 (n + start) else Z.min start n in
  skipn (Z.to_nat i) l.

(** Decimal digits, for the conversions argparse applies to option values. *)
Definition digit_of (c : ascii) : option Z :=
  let n := nat_of_ascii c in
  if (48 <=? n) && (n <=? 57) then Some (Z.of_nat (n - 48)) else None.

Fixpoint digits (acc : Z) (s : list ascii) : option Z :=
  match s with
  | [] => Some acc
  | c :: s' =>
      match digit_of c with
      | Some d => digits (10 * acc + d) s'
      | None => None
      end
  end.

Definition unsigned (s : list ascii) : option Z :=
  match s with
  | [] => None
  | _ :: _ => digits 0 s
  end.

(** [int(token)] for plain decimal tokens with an optional sign. *)
Definition int (token : string) : option Z :=
  match list_ascii_of_string token with
  | "-"%char :: s => option_map Z.opp (unsigned s)
  | "+"%char :: s => unsigned s
  | s => unsigned s
  end.

(** Splits at the first dot. *)
Fixpoint split_dot (s : list ascii) : list ascii * option (list ascii) :=
  match s with
  | [] => ([], None)
  | c :: s' =>
      if Ascii.eqb c "."%char then ([], Some s')
      else let '(a, b) := split_dot s' in (c :: a, b)
  end.

Definition decimal (s : list ascii) : option Q :=
  match split_dot s with
  | (whole, None) => option_map inject_Z (unsigned whole)
  | (whole, Some frac) =>
      match unsigned whole, unsigned frac with
      | Some w, Some fr =>
          let scale := Pos.pow 10 (Pos.of_nat (length frac)) in
          Some (Qmake (w * Zpos scale + fr) scale)
      | _, _ => None
      end
  end.

(** [float(token)] for tokens in plain decimal notation ([1], [0.5], [-2.25]);
    the value is kept as the rational the token denotes. *)
Definition float (token : string) : option Q :=
  match list_ascii_of_string token with
  | "-"%char :: s => option_map Qopp (decimal s)
  | s => decimal s
  end.

End Py.

Import Py.

(** ** Effects: output, exceptions, process exit *)

Module Eff.

(** Conditions the operating system reports on a file operation. [EAGAIN]
    and [EINTR] are the transient ones (momentary unavailability); [EACCES]
    is a permission failure, [EIO] a device failure, [ENOENT] a missing
    file. *)
Inductive errno := EAGAIN | EINTR | EACCES | EIO | ENOENT.


(** The exceptions the program meets. [OSError] is an [Exception];
    [KeyboardInterrupt] and [SystemExit] are not. *)
Inductive exn :=
| KeyboardInterrupt
| SystemExit (code : Z)
| OSError (e : errno).

(** What the program writes to standard error. *)
Inductive notice :=
| NotFound (filename : string)     (* Error: File '...' not found *)
| Monitoring (filename : string)   (* ==> Monitoring ... for changes <== *)
| Truncated                        (* ==> File truncated, restarting from beginning <== *)
| Stopped                          (* ==> Monitoring stopped <== *)
| Failed (e : errno)               (* Error: ... *)
| Usage.                           (* argparse's usage message *)

(** Observable actions, in the order they happen. *)
Inductive event :=
| Stdout (line : text)             (* print(line, end='') *)
| Stderr (n : notice)              (* print(..., file=sys.stderr) *)
| Sleep (interval : Q).            (* time.sleep(interval) *)

Inductive result (A : Type) :=
| Ok (a : A)
| Raise (e : exn).
Arguments Ok {A} a.
Arguments Raise {A} e.

(** A computation: the events it produced, and how it ended. *)
Definition M (A : Type) : Type := (list event * result A)%type.

Definition ret {A : Type} (a : A) : M A := ([], Ok a).

Definition bind {A B : Type} (m : M A) (k : A -> M B) : M B :=
  match m with
  | (out, Ok a) => let '(out', r) := k a in (out ++ out', r)
  | (out, Raise e) => (out, Raise e)
  end.

Definition raise {A : Type} (e : exn) : M A := ([], Raise e).

(** The reply of the outside world to a call. *)
Definition ask {A : Type} (reply : result A) : M A := ([], reply).

(** An action of the program itself; [print] and [time.sleep] as calls that
    start. That [print] could fail (a closed pipe) is left out. *)
Definition emit (ev : event) : M unit := ([ev], Ok tt).

(** [try: m except ...: handler]. *)
Definition try_except {A : Type} (m : M A) (handler : exn -> M A) : M A :=
  match m with
  | (out, Ok a) => (out, Ok a)
  | (out, Raise e) => let '(out', r) := handler e in (out ++ out', r)
  end.

Fixpoint for_each {A : Type} (l : list A) (body : A -> M unit) : M unit :=
  match l with
  | [] => ret tt
  | a :: l' => bind (body a) (fun _ => for_each l' body)
  end.

Definition trace {A : Type} (m : M A) : list event := fst m.
Definition outcome {A : Type} (m : M A) : result A := snd m.

(** The lines written to standard output, in order. *)
Fixpoint stdout (tr : list event) : list text :=
  match tr with
  | [] => []
  | Stdout line :: tr' => line :: stdout tr'
  | _ :: tr' => stdout tr'
  end.

(** The notices written to standard error, in order. *)
Fixpoint stderr (tr : list event) : list notice :=
  match tr with
  | [] => []
  | Stderr n :: tr' => n :: stderr tr'
  | _ :: tr' => stderr tr'
  end.

Definition is_truncated (n : notice) : bool :=
  match n with
  | Truncated => true
  | _ => false
  end.

(** How many truncation markers a trace holds. *)
Definition markers (tr : list event) : nat :=
  length (filter is_truncated (stderr tr)).

End Eff.

Import Eff.

Declare Scope eff_scope.
Delimit Scope eff_scope with eff.
Notation "x <- m ;; k" := (bind m (fun x => k))
  (at level 61, m at next level, right associativity) : eff_scope.
Notation "m ;; k" := (bind m (fun _ => k))
  (at level 61, right associativity) : eff_scope.
Local Open Scope eff_scope.

(** ** The program *)

(** The replies of the outside world during one iteration of the loop:
    [at_read] is the file content on disk when [file.readline()] runs,
    [at_size] the size [file.seek(0, 2); file.tell()] finds, [at_sleep] how
    [time.sleep] ends. *)
Record poll := {
  at_read : result text;
  at_size : result nat;
  at_sleep : result unit
}.

(** An iteration during which nothing goes wrong and nobody touches the file,
    which holds [f]. *)
Definition quiet (f : text) : poll :=
  {| at_read := Ok f; at_size := Ok (length f); at_sleep := Ok tt |}.

(** The replies during a whole session: whether the path exists, the size
    found by the seek to the end after [open] (or the exception [open]
    raises), the content [readlines] finds, and the polls of the loop. *)
Record environment := {
  path_exists : bool;
  at_open : result nat;
  at_readlines : result text;
  polls : list poll
}.

(** A session on a file that holds [f] while it starts. *)
Definition session (f : text) (ps : list poll) : environment :=
  {| path_exists := true; at_open := Ok (length f);
     at_readlines := Ok f; polls := ps |}.

Definition sys_exit {A : Type} (code : Z) : M A := raise (SystemExit code).

(** Lines 57-74: one iteration of [while True], with the handle at [pos];
    the result is the handle's position after the iteration. The position is
    what [file.tell()] returns, which on [plain] text is the offset. *)
Definition loop_body (interval : Q) (p : poll) (pos : nat) : M nat :=
  let current_position := pos in
  f <- ask (at_read p) ;;
  let '(line, pos_after) := readline f pos in
  match line with
  | _ :: _ =>
      emit (Stdout line) ;;
      ret pos_after
  | [] =>
      new_size <- ask (at_size p) ;;
      if new_size <? current_position then
        emit (Stderr Truncated) ;;
        ret 0
      else
        emit (Sleep interval) ;;
        ask (at_sleep p) ;;
        ret new_size
  end.

(** Lines 56-74: the loop, run for as many iterations as the script has
    polls. *)
Fixpoint follow (interval : Q) (ps : list poll) (pos : nat) : M nat :=
  match ps with
  | [] => ret pos
  | p :: ps' =>
      pos' <- loop_body interval p pos ;;
      follow interval ps' pos'
  end.

(** Lines 40-50: open, seek to the end, and the initial window; the result is
    the handle's position when the loop starts. *)
Definition initial_phase (lines : Z) (env : environment) : M nat :=
  file_size <- ask (at_open env) ;;
  if (lines >? 0)%Z then
    f <- ask (at_readlines env) ;;
    let all_lines := readlines f in
    for_each (slice_from all_lines (- lines)) (fun line => emit (Stdout line)) ;;
    ret (length f)
  else
    ret file_size.

(** Lines 34-74: the body of the [try]. *)
Definition tail_file_body (filename : string) (interval : Q) (lines : Z)
    (env : environment) : M nat :=
  (if negb (path_exists env) then
     emit (Stderr (NotFound filename)) ;;
     sys_exit 1
   else ret tt) ;;
  pos <- initial_phase lines env ;;
  emit (Stderr (Monitoring filename)) ;;
  follow interval (polls env) pos.

(** Lines 76-81: the [except] clauses. [SystemExit] is not an [Exception] and
    passes through. *)
Definition handler (e : exn) : M nat :=
  match e with
  | KeyboardInterrupt =>
      emit (Stderr Stopped) ;;
      sys_exit 0
  | OSError err =>
      emit (Stderr (Failed err)) ;;
      sys_exit 1
  | SystemExit code => raise (SystemExit code)
  end.

Definition tail_file (filename : string) (interval : Q) (lines : Z)
    (env : environment) : M nat :=
  try_except (tail_file_body filename interval lines env) handler.

(** The namespace [parse_args] returns. *)
Record args := {
  filename : string;
  interval : Q;
  lines : Z
}.

(** A token that starts with a dash is read as an option. *)
Definition is_flag (token : string) : bool :=
  match token with
  | String c _ => Ascii.eqb c "-"%char
  | EmptyString => false
  end.

(** Lines 85-106: the parser [main] declares, for command lines in which an
    option and its value are separate tokens; on those it gives what argparse
    gives. [None] is a usage error; the other forms argparse accepts
    ([--lines=5], [-n5], abbreviations, [-h]) are outside the model and are
    [None] here too. *)
Fixpoint parse (argv : list string) (name : option string) (n : Z) (s : Q)
    : option args :=
  match argv with
  | [] =>
      match name with
      | Some f => Some {| filename := f; interval := s; lines := n |}
      | None => None
      end
  | token :: rest =>
      if (String.eqb token "-n" || String.eqb token "--lines")%bool then
        match rest with
        | value :: rest' =>
            match int value with
            | Some n' => parse rest' name n' s
            | None => None
            end
        | [] => None
        end
      else if (String.eqb token "-s" || String.eqb token "--sleep-interval")%bool then
        match rest with
        | value :: rest' =>
            match float value with
            | Some s' => parse rest' name n s'
            | None => None
            end
        | [] => None
        end
      else if is_flag token then None
      else
        match name with
        | None => parse rest (Some token) n s
        | Some _ => None
        end
  end.

Definition parse_args (argv : list string) : option args :=
  parse argv None 10%Z 1%Q.

(** Lines 84-107. argparse exits with status 2 on a usage error. *)
Definition main (argv : list string) (env : environment) : M nat :=
  match parse_args argv with
  | None =>
      emit (Stderr Usage) ;;
      sys_exit 2
  | Some a => tail_file (filename a) (interval a) (lines a) env
  end.

(** The status the process exits with, if it has exited. *)
Definition exit_code {A : Type} (m : M A) : option Z :=
  match outcome m with
  | Raise (SystemExit code) => Some code
  | _ => None
  end.

(** ** Notions the specification uses *)

(** The characters of [f] from offset [a] up to offset [b]. *)
Definition segment (f : text) (a b : nat) : text :=
  firstn (b - a) (skipn a f).

(** A line is complete when it ends with a newline. *)
Fixpoint complete (line : text) : bool :=
  match line with
  | [] => false
  | [c] => is_newline c
  | _ :: line' => complete line'
  end.

(** The complete lines of a file: its newline-terminated lines, without an
    unterminated tail. *)
Definition complete_lines (f : text) : list text :=
  filter complete (readlines f).

(** The content of a file up to its last newline-terminated line. *)
Definition up_to_last_newline (f : text) : text :=
  concat (complete_lines f).

(** The last [n] elements of a list, all of them when it has fewer. *)
Definition last_n {A : Type} (n : nat) (l : list A) : list A :=
  skipn (length l - n) l.

(** The successive contents of a file that holds [f] and receives the appends
    [cs], one before each poll. *)
Fixpoint grow (f : text) (cs : list text) : list text :=
  match cs with
  | [] => []
  | c :: cs' => (f ++ c) :: grow (f ++ c) cs'
  end.

Definition text_of (s : string) : text := list_ascii_of_string s.

(** A line of text: the characters of [s] and a newline. *)
Definition ln (s : string) : text := text_of s ++ [newline].

(** ** The viewer: [src/logtail_gui.py]

    The application object is a record of the attributes its methods read
    and assign, widget texts included; a method is a function from the state
    before to the state after. What a method learns from the outside (whether
    a path exists, what a read returns, whether the follower thread is alive)
    is an argument. The follower thread is modelled by what it hands to the
    clock: the callbacks it schedules, in order, which the main thread runs in
    that order. Strings are ASCII, as for the command-line tool; layout,
    colours, the clipboard and the context menu are left out. *)

Module Gui.

(** [c.lower()] for a character below 256: the capital letters are [A-Z]
    and, past ASCII, 192-214 and 216-222. *)
Definition lower_char (c : ascii) : ascii :=
  let n := nat_of_ascii c in
  if ((65 <=? n) && (n <=? 90)) || ((192 <=? n) && (n <=? 214))
     || ((216 <=? n) && (n <=? 222))
  then ascii_of_nat (n + 32) else c.

(** [s.lower()]. *)
Definition lower (s : text) : text := map lower_char s.

(** [s.startswith(sub)]. *)
Fixpoint starts_with (sub s : text) : bool :=
  match sub, s with
  | [], _ => true
  | _ :: _, [] => false
  | a :: sub', b :: s' => Ascii.eqb a b && starts_with sub' s'
  end.

(** The search behind [find], on the text [s] that starts at offset [i]. *)
Fixpoint find_from (sub s : text) (i : nat) : option nat :=
  if starts_with sub s then Some i
  else match s with
       | [] => None
       | _ :: s' => find_from sub s' (S i)
       end.

(** [s.find(sub, start)] for [start >= 0]: the lowest offset not below
    [start] at which [sub] occurs, [None] where Python returns -1. *)
Definition find (s sub : text) (start : nat) : option nat :=
  if length s <? start then None else find_from sub (skipn start s) start.

(** [sub in s]. *)
Definition contains (sub s : text) : bool :=
  match find s sub 0 with
  | Some _ => true
  | None => false
  end.

(** [s.split('\n')]. *)
Fixpoint split (s : text) : list text :=
  match s with
  | [] => [[]]
  | c :: s' =>
      if is_newline c then [] :: split s'
      else match split s' with
           | l :: ls => (c :: l) :: ls
           | [] => [[c]]
           end
  end.

(** ['\n'.join(ls)]. *)
Fixpoint join (ls : list text) : text :=
  match ls with
  | [] => []
  | [l] => l
  | l :: ls' => l ++ newline :: join ls'
  end.

(** ASCII whitespace, as [str.strip] sees it. *)
Definition is_space (c : ascii) : bool :=
  let n := nat_of_ascii c in
  ((9 <=? n) && (n <=? 13)) || ((28 <=? n) && (n <=? 32)).

Fixpoint lstrip (s : text) : text :=
  match s with
  | [] => []
  | c :: s' => if is_space c then lstrip s' else s
  end.

Definition rstrip (s : text) : text := rev (lstrip (rev s)).

(** [s.strip()]. *)
Definition strip (s : text) : text := rstrip (lstrip s).

Definition is_slash (c : ascii) : bool := Ascii.eqb c "/"%char.

(** [os.path.basename(p)] on a POSIX path: what follows the last slash. *)
Fixpoint basename (p : text) : text :=
  match p with
  | [] => []
  | c :: p' =>
      if existsb is_slash p' then basename p'
      else if is_slash c then p' else p
  end.

(** What a file operation of the viewer gives back: a value, or an
    [Exception] (the only kind the viewer's handlers catch). *)
Inductive reply (A : Type) :=
| Got (a : A)
| Fails (e : errno).
Arguments Got {A} a.
Arguments Fails {A} e.

(** The texts of the file label. *)
Inductive label :=
| NoFileLoaded                       (* No file loaded *)
| FileName (name : text).            (* os.path.basename(path) *)

(** The texts of the status label. *)
Inductive status :=
| Ready                              (* Ready *)
| PleaseEnterPath                    (* Please enter a file path *)
| PathNotFound (path : text)         (* Error: Path not found - ... *)
| ErrorOpening (e : errno)           (* Error opening file: ... *)
| Loaded (path : text)               (* Loaded ... *)
| NoFileToFollow                     (* No file to follow *)
| Following                          (* Following *)
| FollowError (e : errno)            (* Follow error: ... *)
| Cleared                            (* Cleared *)
| EnterSearchText                    (* Enter search text *)
| NoMatchesFound (term : text)       (* No matches found for "..." *)
| MatchOf (i n : nat)                (* Match i of n *)
| NoMatchingLines                    (* No matching lines found *)
| ShowingMatching (n : nat)          (* Showing n matching lines *)
| SearchCleared                      (* Search cleared *)
| CaseSensitive (on : bool).         (* Case sensitive: ON / OFF *)

Record LogTailApp := {
  file_path : option text;         (* self.file_path *)
  follow_thread : bool;            (* self.follow_thread is a thread object *)
  threads_started : nat;           (* how many times Thread.start() has run *)
  stop_following : bool;           (* self.stop_following *)
  search_text : text;              (* self.search_text *)
  search_matches : list nat;       (* self.search_matches *)
  current_match_index : nat;       (* self.current_match_index *)
  case_sensitive : bool;           (* self.case_sensitive *)
  all_log_text : text;             (* self.all_log_text *)
  path_input : text;               (* self.path_input.text *)
  file_label : label;              (* self.file_label.text *)
  status_label : status;           (* self.status_label.text *)
  follow_checkbox : bool;          (* self.follow_checkbox.active *)
  search_input : text;             (* self.search_input.text *)
  log_display : text;              (* self.log_display.text *)
  cursor : nat * nat;              (* self.log_display.cursor, as last assigned by the program *)
  browser : option text            (* the file chooser popup, open at a path *)
}.

(** Assignment to one attribute. *)
Definition set_file_path (v : option text) (a : LogTailApp) : LogTailApp :=
  Build_LogTailApp v (follow_thread a) (threads_started a) (stop_following a)
    (search_text a) (search_matches a) (current_match_index a)
    (case_sensitive a) (all_log_text a) (path_input a) (file_label a)
    (status_label a) (follow_checkbox a) (search_input a) (log_display a)
    (cursor a) (browser a).

Definition set_follow_thread (v : bool) (a : LogTailApp) : LogTailApp :=
  Build_LogTailApp (file_path a) v (threads_started a) (stop_following a)
    (search_text a) (search_matches a) (current_match_index a)
    (case_sensitive a) (all_log_text a) (path_input a) (file_label a)
    (status_label a) (follow_checkbox a) (search_input a) (log_display a)
    (cursor a) (browser a).

Definition set_threads_started (v : nat) (a : LogTailApp) : LogTailApp :=
  Build_LogTailApp (file_path a) (follow_thread a) v (stop_following a)
    (search_text a) (search_matches a) (current_match_index a)
    (case_sensitive a) (all_log_text a) (path_input a) (file_label a)
    (status_label a) (follow_checkbox a) (search_input a) (log_display a)
    (cursor a) (browser a).

Definition set_stop_following (v : bool) (a : LogTailApp) : LogTailApp :=
  Build_LogTailApp (file_path a) (follow_thread a) (threads_started a) v
    (search_text a) (search_matches a) (current_match_index a)
    (case_sensitive a) (all_log_text a) (path_input a) (file_label a)
    (status_label a) (follow_checkbox a) (search_input a) (log_display a)
    (cursor a) (browser a).

Definition set_search_text (v : text) (a : LogTailApp) : LogTailApp :=
  Build_LogTailApp (file_path a) (follow_thread a) (threads_started a)
    (stop_following a) v (search_matches a) (current_match_index a)
    (case_sensitive a) (all_log_text a) (path_input a) (file_label a)
    (status_label a) (follow_checkbox a) (search_input a) (log_display a)
    (cursor a) (browser a).

Definition set_search_matches (v : list nat) (a : LogTailApp) : LogTailApp :=
  Build_LogTailApp (file_path a) (follow_thread a) (threads_started a)
    (stop_following a) (search_text a) v (current_match_index a)
    (case_sensitive a) (all_log_text a) (path_input a) (file_label a)
    (status_label a) (follow_checkbox a) (search_input a) (log_display a)
    (cursor a) (browser a).

Definition set_current_match_index (v : nat) (a : LogTailApp) : LogTailApp :=
  Build_LogTailApp (file_path a) (follow_thread a) (threads_started a)
    (stop_following a) (search_text a) (search_matches a) v
    (case_sensitive a) (all_log_text a) (path_input a) (file_label a)
    (status_label a) (follow_checkbox a) (search_input a) (log_display a)
    (cursor a) (browser a).

Definition set_case_sensitive (v : bool) (a : LogTailApp) : LogTailApp :=
  Build_LogTailApp (file_path a) (follow_thread a) (threads_started a)
    (stop_following a) (search_text a) (search_matches a)
    (current_match_index a) v (all_log_text a) (path_input a) (file_label a)
    (status_label a) (follow_checkbox a) (search_input a) (log_display a)
    (cursor a) (browser a).

Definition set_all_log_text (v : text) (a : LogTailApp) : LogTailApp :=
  Build_LogTailApp (file_path a) (follow_thread a) (threads_started a)
    (stop_following a) (search_text a) (search_matches a)
    (current_match_index a) (case_sensitive a) v (path_input a)
    (file_label a) (status_label a) (follow_checkbox a) (search_input a)
    (log_display a) (cursor a) (browser a).

Definition set_file_label (v : label) (a : LogTailApp) : LogTailApp :=
  Build_LogTailApp (file_path a) (follow_thread a) (threads_started a)
    (stop_following a) (search_text a) (search_matches a)
    (current_match_index a) (case_sensitive a) (all_log_text a)
    (path_input a) v (status_label a) (follow_checkbox a) (search_input a)
    (log_display a) (cursor a) (browser a).

Definition set_status_label (v : status) (a : LogTailApp) : LogTailApp :=
  Build_LogTailApp (file_path a) (follow_thread a) (threads_started a)
    (stop_following a) (search_text a) (search_matches a)
    (current_match_index a) (case_sensitive a) (all_log_text a)
    (path_input a) (file_label a) v (follow_checkbox a) (search_input a)
    (log_display a) (cursor a) (browser a).

Definition set_follow_checkbox (v : bool) (a : LogTailApp) : LogTailApp :=
  Build_LogTailApp (file_path a) (follow_thread a) (threads_started a)
    (stop_following a) (search_text a) (search_matches a)
    (current_match_index a) (case_sensitive a) (all_log_text a)
    (path_input a) (file_label a) (status_label a) v (search_input a)
    (log_display a) (cursor a) (browser a).

Definition set_search_input (v : text) (a : LogTailApp) : LogTailApp :=
  Build_LogTailApp (file_path a) (follow_thread a) (threads_started a)
    (stop_following a) (search_text a) (search_matches a)
    (current_match_index a) (case_sensitive a) (all_log_text a)
    (path_input a) (file_label a) (status_label a) (follow_checkbox a) v
    (log_display a) (cursor a) (browser a).

Definition set_log_display (v : text) (a : LogTailApp) : LogTailApp :=
  Build_LogTailApp (file_path a) (follow_thread a) (threads_started a)
    (stop_following a) (search_text a) (search_matches a)
    (current_match_index a) (case_sensitive a) (all_log_text a)
    (path_input a) (file_label a) (status_label a) (follow_checkbox a)
    (search_input a) v (cursor a) (browser a).

Definition set_cursor (v : nat * nat) (a : LogTailApp) : LogTailApp :=
  Build_LogTailApp (file_path a) (follow_thread a) (threads_started a)
    (stop_following a) (search_text a) (search_matches a)
    (current_match_index a) (case_sensitive a) (all_log_text a)
    (path_input a) (file_label a) (status_label a) (follow_checkbox a)
    (search_input a) (log_display a) v (browser a).

Definition set_browser (v : option text) (a : LogTailApp) : LogTailApp :=
  Build_LogTailApp (file_path a) (follow_thread a) (threads_started a)
    (stop_following a) (search_text a) (search_matches a)
    (current_match_index a) (case_sensitive a) (all_log_text a)
    (path_input a) (file_label a) (status_label a) (follow_checkbox a)
    (search_input a) (log_display a) (cursor a) v.


Local Notation "a |> f" := (f a) (at level 45, left associativity, only parsing).

(** Lines 103-113 and the widgets as [build] creates them. *)
Definition init : LogTailApp :=
  {| file_path := None; follow_thread := false; threads_started := 0;
     stop_following := false; search_text := []; search_matches := [];
     current_match_index := 0; case_sensitive := false; all_log_text := [];
     path_input := []; file_label := NoFileLoaded; status_label := Ready;
     follow_checkbox := false; search_input := []; log_display := [];
     cursor := (0, 0); browser := None |}.

(** Lines 300-302. *)
Definition append_text (t : text) (a : LogTailApp) : LogTailApp :=
  let a := set_log_display (log_display a ++ t) a in
  set_cursor (length (log_display a), 0) a.

(** Lines 275-284; [alive] is what [follow_thread.is_alive()] returns. *)
Definition start_following (alive : bool) (a : LogTailApp) : LogTailApp :=
  match file_path a with
  | None | Some [] => set_status_label NoFileToFollow a
  | Some (_ :: _) =>
      if follow_thread a && alive then a
      else a |> set_stop_following false
             |> set_follow_thread true
             |> set_threads_started (S (threads_started a))
             |> set_status_label Following
  end.

(** Lines 258-273; [read] is what opening and reading [path] gives. *)
Definition load_file (path : text) (read : reply text) (alive : bool)
    (a : LogTailApp) : LogTailApp :=
  match read with
  | Fails e => set_status_label (ErrorOpening e) a
  | Got t =>
      let a := a |> set_file_path (Some path)
                 |> set_file_label (FileName (basename path))
                 |> set_log_display t
                 |> set_all_log_text []
                 |> set_search_input []
                 |> set_status_label (Loaded path) in
      if follow_checkbox a then start_following alive a else a
  end.

(** Lines 232-256, up to [popup.open()]: the chooser is shown at
    [start_path]. *)
Definition open_file_browser_at_path (start_path : text) (a : LogTailApp) : LogTailApp :=
  set_browser (Some start_path) a.

(** Lines 248-252: the Select button, with the chooser's selection. *)
Definition on_select (selection : list text) (read : reply text)
    (alive : bool) (a : LogTailApp) : LogTailApp :=
  match selection with
  | [] => a
  | path :: _ => load_file path read alive (set_browser None a)
  end.


(** Lines 228-230; [home] is [os.path.expanduser('~')]. *)
Definition open_file_browser (home : text) (a : LogTailApp) : LogTailApp :=
  let start_path :=
    match strip (path_input a) with
    | [] => home
    | p => p
    end in
  open_file_browser_at_path start_path a.

(** Lines 304-309. *)
Definition stop_and_clear (a : LogTailApp) : LogTailApp :=
  a |> set_stop_following true
    |> set_file_path None
    |> set_file_label NoFileLoaded
    |> set_log_display []
    |> set_status_label Cleared.

(** Lines 311-315. *)
Definition toggle_follow (value : bool) (alive : bool) (a : LogTailApp) : LogTailApp :=
  if value then start_following alive a
  else set_stop_following true a.

(** A click on the follow checkbox: the widget takes the new value and
    calls [toggle_follow], which is bound to it. *)
Definition click_follow (value : bool) (alive : bool) (a : LogTailApp) : LogTailApp :=
  toggle_follow value alive (set_follow_checkbox value a).

(** Lines 333-340: the loop that collects the matches, run for at most
    [fuel] iterations. *)
Fixpoint find_all (fuel : nat) (s term : text) (start : nat) : list nat :=
  match fuel with
  | 0 => []
  | S fuel' =>
      match find s term start with
      | None => []
      | Some pos => pos :: find_all fuel' s term (pos + 1)
      end
  end.

(** Lines 318-354. The loop is given one iteration more than the text has
    characters, which the development shows to be enough. *)
Definition find_next (a : LogTailApp) : LogTailApp :=
  match search_input a with
  | [] => set_status_label EnterSearchText a
  | _ :: _ =>
      let search_term := search_input a in
      let a := set_search_text search_term a in
      let text_to_search := log_display a in
      let '(text_to_search, search_term) :=
        if case_sensitive a then (text_to_search, search_term)
        else (lower text_to_search, lower search_term) in
      let matches :=
        find_all (S (length text_to_search)) text_to_search search_term 0 in
      let a := set_search_matches matches a in
      match matches with
      | [] => set_status_label (NoMatchesFound search_term) a
      | _ :: _ =>
          let a :=
            if length matches <=? current_match_index a
            then set_current_match_index 0 a else a in
          let match_pos := nth (current_match_index a) matches 0 in
          a |> set_cursor (match_pos, 0)
            |> set_status_label
                 (MatchOf (current_match_index a + 1) (length matches))
            |> set_current_match_index
                 ((current_match_index a + 1) mod length matches)
      end
  end.

(** Lines 367-373: the test a line must pass to be kept. *)
Definition line_matches (sensitive : bool) (search_term line : text) : bool :=
  if sensitive then contains search_term line
  else contains (lower search_term) (lower line).

(** Lines 356-380. *)
Definition show_all_matches (a : LogTailApp) : LogTailApp :=
  match search_input a with
  | [] => set_status_label EnterSearchText a
  | _ :: _ =>
      let search_term := search_input a in
      let a := set_all_log_text (log_display a) a in
      let lines := split (all_log_text a) in
      let matching_lines :=
        filter (line_matches (case_sensitive a) search_term) lines in
      match matching_lines with
      | [] => set_status_label NoMatchingLines a
      | _ :: _ =>
          a |> set_log_display (join matching_lines)
            |> set_status_label (ShowingMatching (length matching_lines))
      end
  end.

(** Lines 382-393. *)
Definition clear_search (a : LogTailApp) : LogTailApp :=
  let a := a |> set_search_input []
             |> set_search_matches []
             |> set_current_match_index 0 in
  let a :=
    match all_log_text a with
    | [] => a
    | _ :: _ => a |> set_log_display (all_log_text a) |> set_all_log_text []
    end in
  set_status_label SearchCleared a.

(** Lines 395-400. *)
Definition on_case_sensitive_toggle (value : bool) (a : LogTailApp) : LogTailApp :=
  let a := set_case_sensitive value a in
  match search_input a with
  | [] => a
  | _ :: _ =>
      a |> set_current_match_index 0
        |> set_status_label (CaseSensitive value)
  end.

(** What the follower thread hands to the clock. *)
Inductive scheduled :=
| AppendText (line : text)           (* lambda dt, l=line: self.append_text(l) *)
| FollowFailed (e : errno).          (* lambda dt: setattr(..., f'Follow error: {e}') *)

(** What the follower thread does, in order. *)
Inductive action :=
| Schedule (cb : scheduled)          (* Clock.schedule_once(cb) *)
| Nap.                               (* time.sleep(0.2) *)

(** One turn of the follower's loop as the outside world shapes it: the
    value of [self.stop_following] at the loop test, and the content of the
    file when [f.readline()] runs. *)
Record tick := {
  stop_seen : bool;
  line_at : reply text
}.

(** A turn in which the thread is not asked to stop and the file holds [f]. *)
Definition reading (f : text) : tick :=
  {| stop_seen := false; line_at := Got f |}.

(** How a run of the follower over a script of turns ends: still in its
    loop with the handle at a position, or finished (asked to stop, or
    failed). *)
Inductive thread :=
| Running (pos : nat)
| Finished.

(** Lines 291-296: the loop, with the handle at [pos]. *)
Fixpoint follow_loop (ticks : list tick) (pos : nat) : list action * thread :=
  match ticks with
  | [] => ([], Running pos)
  | t :: ticks' =>
      if stop_seen t then ([], Finished)
      else
        match line_at t with
        | Fails e => ([Schedule (FollowFailed e)], Finished)
        | Got f =>
            let '(line, pos') := readline f pos in
            let '(acts, th) := follow_loop ticks' pos' in
            match line with
            | [] => (Nap :: acts, th)
            | _ :: _ => (Schedule (AppendText line) :: acts, th)
            end
        end
  end.

(** Lines 286-298; [opened] is the size found by the seek to the end after
    [open], or the exception [open] raises. *)
Definition _follow_file (opened : reply nat) (ticks : list tick)
    : list action * thread :=
  match opened with
  | Fails e => ([Schedule (FollowFailed e)], Finished)
  | Got size => follow_loop ticks size
  end.

(** How a call of a scheduled callback ends: it returns, leaving a state,
    or it raises [NameError]. *)
Inductive called :=
| Returned (a : LogTailApp)
| NameError.

(** The main thread calls a scheduled callback. The callback that appends
    has its line bound as a default argument. The one scheduled at line 298
    reads [e] when it is called; by then the [except] block has ended and
    unbound [e], so the call raises before anything is assigned. *)
Definition call (cb : scheduled) (a : LogTailApp) : called :=
  match cb with
  | AppendText line => Returned (append_text line a)
  | FollowFailed e => NameError
  end.

(** The state after the main thread has called a scheduled callback. What
    the event loop does with an exception is outside the model. *)
Definition run_scheduled (cb : scheduled) (a : LogTailApp) : LogTailApp :=
  match call cb a with
  | Returned a' => a'
  | NameError => a
  end.

(** The main thread runs, in order, the callbacks among the follower's
    actions. *)
Fixpoint deliver (acts : list action) (a : LogTailApp) : LogTailApp :=
  match acts with
  | [] => a
  | Schedule cb :: acts' => deliver acts' (run_scheduled cb a)
  | Nap :: acts' => deliver acts' a
  end.

(** The lines the follower hands over for display, in order. *)
Fixpoint appended (acts : list action) : list text :=
  match acts with
  | [] => []
  | Schedule (AppendText line) :: acts' => line :: appended acts'
  | _ :: acts' => appended acts'
  end.

(** Every occurrence of [term] in [s] at an offset: [term] is what [s] holds
    there. *)
Definition occurs_at (term s : text) (i : nat) : Prop :=
  i + length term <= length s /\ firstn (length term) (skipn i s) = term.

(** An ASCII character; on ASCII text [str.lower] changes [A-Z] only and
    keeps lengths. *)
Definition is_ascii (c : ascii) : bool := nat_of_ascii c <? 128.

(** The offsets at which [term] occurs in [s], in increasing order. *)
Definition occurrences (term s : text) : list nat :=
  filter (fun i => starts_with term (skipn i s)) (seq 0 (S (length s))).

(** The text and the term [find_next] compares: as they are when the
    search is case sensitive, lower-cased otherwise. *)
Definition searched_text (a : LogTailApp) : text :=
  if case_sensitive a then log_display a else lower (log_display a).

Definition searched_term (a : LogTailApp) : text :=
  if case_sensitive a then search_input a else lower (search_input a).

(** The lines [show_all_matches] keeps. *)
Definition kept_lines (a : LogTailApp) : list text :=
  filter (line_matches (case_sensitive a) (search_input a))
    (split (log_display a)).

End Gui.

(** A character of plain text: ASCII, and no carriage return. The text layer
    delivers such characters as they are, one per byte. *)
Definition plain_char (c : ascii) : bool :=
  (nat_of_ascii c <? 128) && negb (Ascii.eqb c "013"%char).

(** Plain text. *)
Definition plain (s : text) : bool := forallb plain_char s.

(** A piece of output that is one line or the beginning of one: not empty,
    and with no newline before its last character. *)
Definition one_line (piece : text) : bool :=
  match piece with
  | [] => false
  | _ :: _ => negb (existsb is_newline (removelast piece))
  end.

(** ** Lines *)

Section Lines.

Lemma take_line_rest (s : text) :
  take_line s ++ skipn (length (take_line s)) s = s.
Proof.
  induction s as [|c s IH]; simpl; [reflexivity|].
  destruct (is_newline c); simpl; [reflexivity|].
  now rewrite IH.
Qed.

Lemma take_line_nil (s : text) : take_line s = [] -> s = [].
Proof.
  destruct s as [|c s]; simpl; [reflexivity|].
  destruct (is_newline c); discriminate.
Qed.

Lemma take_line_length (s : text) : length (take_line s) <= length s.
Proof.
  induction s as [|c s IH]; simpl; [lia|].
  destruct (is_newline c); simpl; lia.
Qed.

Lemma take_line_positive (s : text) : s <> [] -> 0 < length (take_line s).
Proof.
  intros Hs. destruct (take_line s) eqn:E; simpl; [|lia].
  now apply take_line_nil in E.
Qed.

Lemma readlines_unfold (s : text) :
  s <> [] ->
  readlines s = take_line s :: readlines (skipn (length (take_line s)) s).
Proof.
  induction s as [|c s IH]; intros Hs; [congruence|].
  simpl. destruct (is_newline c) eqn:Hc; simpl; [reflexivity|].
  destruct s as [|d s]; [reflexivity|].
  rewrite IH by discriminate. reflexivity.
Qed.

Lemma concat_readlines (s : text) : concat (readlines s) = s.
Proof.
  induction s as [|c s IH]; simpl; [reflexivity|].
  destruct (is_newline c); simpl; [now rewrite IH|].
  destruct (readlines s) as [|l ls]; simpl in *; now rewrite <- IH.
Qed.

Lemma readlines_nil (s : text) : readlines s = [] -> s = [].
Proof.
  intros H. rewrite <- (concat_readlines s), H. reflexivity.
Qed.

(** A text without a newline is returned whole by [readline]. *)
Lemma take_line_no_newline (s : text) :
  existsb is_newline s = false ->
  take_line s = s.
Proof.
  induction s as [|c s IH]; simpl; [reflexivity|].
  destruct (is_newline c); simpl; [discriminate|].
  intros H. now rewrite IH.
Qed.

Lemma take_line_terminated (s rest : text) :
  existsb is_newline s = false ->
  take_line (s ++ newline :: rest) = s ++ [newline].
Proof.
  induction s as [|c s IH]; simpl.
  - reflexivity.
  - destruct (is_newline c); simpl; [discriminate|].
    intros H. now rewrite IH.
Qed.

Lemma complete_app_newline (s : text) : complete (s ++ [newline]) = true.
Proof.
  induction s as [|c s IH]; simpl.
  - reflexivity.
  - destruct (s ++ [newline]) eqn:E; [now destruct s|exact IH].
Qed.

End Lines.

(** ** Segments of a file *)

Section Segments.

Lemma segment_empty (f : text) (a : nat) : segment f a a = [].
Proof. unfold segment. now rewrite Nat.sub_diag. Qed.

Lemma segment_to_end (f : text) (a : nat) : segment f a (length f) = skipn a f.
Proof.
  unfold segment. rewrite <- (length_skipn a f). apply firstn_all.
Qed.

Lemma segment_join (f : text) (a b c : nat) :
  a <= b -> b <= c -> segment f a b ++ segment f b c = segment f a c.
Proof.
  intros Hab Hbc. unfold segment.
  replace (c - a) with ((b - a) + (c - b)) by lia.
  rewrite <- (firstn_skipn (b - a) (firstn (b - a + (c - b)) (skipn a f))).
  f_equal.
  - rewrite firstn_firstn. f_equal. lia.
  - rewrite skipn_firstn_comm, skipn_skipn. f_equal; [lia|f_equal; lia].
Qed.

Lemma segment_app (f g : text) (a b : nat) :
  b <= length f -> segment (f ++ g) a b = segment f a b.
Proof.
  intros Hb. unfold segment.
  rewrite skipn_app, firstn_app, length_skipn.
  replace (b - a - (length f - a)) with 0 by lia.
  simpl. apply app_nil_r.
Qed.

End Segments.

(** ** Traces *)

Section Traces.

Lemma stdout_app (tr1 tr2 : list event) :
  stdout (tr1 ++ tr2) = stdout tr1 ++ stdout tr2.
Proof.
  induction tr1 as [|[line|n|d] tr1 IH]; simpl; now rewrite ?IH.
Qed.

Lemma stderr_app (tr1 tr2 : list event) :
  stderr (tr1 ++ tr2) = stderr tr1 ++ stderr tr2.
Proof.
  induction tr1 as [|[line|n|d] tr1 IH]; simpl; now rewrite ?IH.
Qed.

Lemma markers_app (tr1 tr2 : list event) :
  markers (tr1 ++ tr2) = markers tr1 + markers tr2.
Proof.
  unfold markers. now rewrite stderr_app, filter_app, length_app.
Qed.

Lemma stdout_map (ls : list text) : stdout (map Stdout ls) = ls.
Proof. induction ls as [|l ls IH]; simpl; now rewrite ?IH. Qed.

Lemma stderr_map (ls : list text) : stderr (map Stdout ls) = [].
Proof. induction ls as [|l ls IH]; simpl; now rewrite ?IH. Qed.

Lemma for_each_emit (ls : list text) :
  for_each ls (fun line => emit (Stdout line)) = (map Stdout ls, Ok tt).
Proof.
  induction ls as [|l ls IH]; simpl; [reflexivity|].
  now rewrite IH.
Qed.

Lemma bind_ok {A B : Type} (tr : list event) (a : A) (k : A -> M B) :
  bind (tr, Ok a) k = (tr ++ trace (k a), outcome (k a)).
Proof. simpl. now destruct (k a). Qed.

Lemma ask_ok {A B : Type} (a : A) (k : A -> M B) :
  bind (ask (Ok a)) k = k a.
Proof. unfold ask, bind. now destruct (k a). Qed.

Lemma bind_raise {A B : Type} (tr : list event) (e : exn) (k : A -> M B) :
  bind (tr, Raise e) k = (tr, Raise e).
Proof. reflexivity. Qed.

End Traces.

(** ** One iteration of the loop *)

Section Iteration.

Variable interval : Q.

(** Unread content at the cursor: the next line is printed and the cursor
    moves past it. *)
Lemma loop_body_line (f : text) (r : result nat) (w : result unit) (pos : nat) :
  pos < length f ->
  loop_body interval {| at_read := Ok f; at_size := r; at_sleep := w |} pos =
  ([Stdout (take_line (skipn pos f))],
   Ok (pos + length (take_line (skipn pos f)))).
Proof.
  intros Hpos. unfold loop_body, readline. simpl.
  destruct (take_line (skipn pos f)) eqn:E; [|reflexivity].
  apply take_line_nil in E.
  pose proof (length_skipn pos f) as L. rewrite E in L. simpl in L. lia.
Qed.

(** Nothing to read at the cursor. *)
Lemma readline_at_end (f : text) (pos : nat) :
  length f <= pos -> readline f pos = ([], pos + 0).
Proof.
  intros H. unfold readline. now rewrite (skipn_all2 f H).
Qed.

(** Nothing unread and the size is not below the cursor: the loop sleeps and
    the handle is left at the size found. *)
Lemma loop_body_wait (f : text) (n : nat) (pos : nat) :
  length f <= pos -> pos <= n ->
  loop_body interval {| at_read := Ok f; at_size := Ok n; at_sleep := Ok tt |} pos =
  ([Sleep interval], Ok n).
Proof.
  intros Hf Hn. unfold loop_body. cbn [at_read at_size at_sleep].
  rewrite ask_ok, (readline_at_end f pos Hf), ask_ok.
  destruct (n <? pos) eqn:E; [apply Nat.ltb_lt in E; lia|reflexivity].
Qed.

(** Nothing unread and the size is below the cursor: the marker is printed
    and the handle goes back to the start. *)
Lemma loop_body_truncated (f : text) (n : nat) (w : result unit) (pos : nat) :
  length f <= pos -> n < pos ->
  loop_body interval {| at_read := Ok f; at_size := Ok n; at_sleep := w |} pos =
  ([Stderr Truncated], Ok 0).
Proof.
  intros Hf Hn. unfold loop_body. cbn [at_read at_size at_sleep].
  rewrite ask_ok, (readline_at_end f pos Hf), ask_ok.
  destruct (n <? pos) eqn:E; [reflexivity|apply Nat.ltb_ge in E; lia].
Qed.


(** A quiet iteration with the cursor inside the file prints what lies
    between the old and the new cursor, and no notice. *)
Lemma loop_body_quiet (f : text) (pos : nat) :
  pos <= length f ->
  exists tr pos',
    loop_body interval (quiet f) pos = (tr, Ok pos') /\
    pos <= pos' <= length f /\
    concat (stdout tr) = segment f pos pos' /\
    stderr tr = [].
Proof.
  intros Hpos. destruct (Nat.eq_dec pos (length f)) as [->|Hne].
  - exists [Sleep interval], (length f). unfold quiet.
    rewrite loop_body_wait by lia. simpl.
    now rewrite segment_empty.
  - set (line := take_line (skipn pos f)).
    exists [Stdout line], (pos + length line). unfold quiet.
    rewrite loop_body_line by lia. fold line.
    pose proof (take_line_length (skipn pos f)) as L. fold line in L.
    rewrite length_skipn in L.
    repeat split; try lia. simpl. rewrite app_nil_r. unfold segment.
    replace (pos + length line - pos) with (length line) by lia.
    rewrite <- (take_line_rest (skipn pos f)) at 1. fold line.
    now rewrite firstn_app, firstn_all, Nat.sub_diag, app_nil_r.
Qed.

End Iteration.

(** ** The loop over a script of polls *)

Section Loop.

Variable interval : Q.

Lemma follow_app (ps qs : list poll) (pos : nat) :
  follow interval (ps ++ qs) pos =
  bind (follow interval ps pos) (fun pos' => follow interval qs pos').
Proof.
  revert pos. induction ps as [|p ps IH]; intros pos; simpl.
  - now destruct (follow interval qs pos).
  - destruct (loop_body interval p pos) as [tr [pos'|e]]; simpl; [|reflexivity].
    rewrite IH. destruct (follow interval ps pos') as [tr1 [pos1|e1]]; simpl.
    + destruct (follow interval qs pos1) as [tr2 r2]. now rewrite app_assoc.
    + reflexivity.
Qed.

Lemma follow_step (p : poll) (ps : list poll) (pos pos' : nat) (tr : list event) :
  loop_body interval p pos = (tr, Ok pos') ->
  follow interval (p :: ps) pos =
  (tr ++ trace (follow interval ps pos'), outcome (follow interval ps pos')).
Proof.
  intros H. simpl. rewrite H. apply bind_ok.
Qed.

(** The loop on a file that only receives appends, one before each poll:
    the output is the file between where the cursor started and where it
    stands, and nothing goes to standard error. *)
Lemma follow_grow (f : text) (cs : list text) (pos : nat) :
  pos <= length f ->
  exists tr pos',
    follow interval (map quiet (grow f cs)) pos = (tr, Ok pos') /\
    pos <= pos' <= length (f ++ concat cs) /\
    concat (stdout tr) = segment (f ++ concat cs) pos pos' /\
    stderr tr = [].
Proof.
  revert f pos. induction cs as [|c cs IH]; intros f pos Hpos.
  - exists [], pos. simpl. rewrite app_nil_r, segment_empty. auto with arith.
  - simpl grow. simpl map.
    assert (Hpos1 : pos <= length (f ++ c)) by (rewrite length_app; lia).
    destruct (loop_body_quiet interval (f ++ c) pos Hpos1)
      as (tr1 & pos1 & Hstep & Hb1 & Hout1 & Herr1).
    destruct (IH (f ++ c) pos1 (proj2 Hb1)) as (tr2 & pos2 & Hrun & Hb2 & Hout2 & Herr2).
    exists (tr1 ++ tr2), pos2.
    rewrite (follow_step _ _ _ _ _ Hstep), Hrun. simpl.
    rewrite <- app_assoc in *.
    repeat split; try lia.
    + rewrite stdout_app, concat_app, Hout1, Hout2.
      rewrite <- (segment_app (f ++ c) (concat cs) pos pos1) by lia.
      rewrite <- app_assoc. apply segment_join; lia.
    + now rewrite stderr_app, Herr1, Herr2.
Qed.

(** With the cursor at the end of an unchanging file the loop only sleeps. *)
Lemma follow_idle (f : text) (n : nat) :
  follow interval (repeat (quiet f) n) (length f) =
  (repeat (Sleep interval) n, Ok (length f)).
Proof.
  induction n as [|n IH]; [reflexivity|].
  simpl repeat. rewrite (follow_step _ _ _ (length f) [Sleep interval]).
  - now rewrite IH.
  - apply loop_body_wait; lia.
Qed.

Lemma stdout_sleeps (n : nat) : stdout (repeat (Sleep interval) n) = [].
Proof. induction n; simpl; auto. Qed.

Lemma stderr_sleeps (n : nat) : stderr (repeat (Sleep interval) n) = [].
Proof. induction n; simpl; auto. Qed.

(** Given more polls than there are unread characters, the loop prints
    every line from the cursor to the end of an unchanging file and comes to
    rest at its end. *)
Lemma follow_drain (f : text) (n : nat) (pos : nat) :
  pos <= length f -> length f - pos < n ->
  exists tr,
    follow interval (repeat (quiet f) n) pos = (tr, Ok (length f)) /\
    stdout tr = readlines (skipn pos f) /\
    stderr tr = [].
Proof.
  revert pos. induction n as [|n IH]; intros pos Hpos Hn; [lia|].
  destruct (Nat.eq_dec pos (length f)) as [->|Hne].
  - exists (repeat (Sleep interval) (S n)). rewrite follow_idle.
    rewrite stdout_sleeps, stderr_sleeps, skipn_all. auto.
  - set (line := take_line (skipn pos f)).
    assert (Hrest : skipn pos f <> []).
    { intros E. apply skipn_all_iff in E. lia. }
    pose proof (take_line_positive _ Hrest) as Lp.
    pose proof (take_line_length (skipn pos f)) as L.
    rewrite length_skipn in L. fold line in Lp, L.
    destruct (IH (pos + length line)) as (tr & Hrun & Hout & Herr); try lia.
    exists (Stdout line :: tr). simpl repeat.
    rewrite (follow_step _ _ _ (pos + length line) [Stdout line]).
    + rewrite Hrun. simpl. repeat split; auto.
      rewrite Hout, (readlines_unfold _ Hrest). fold line.
      now rewrite skipn_skipn, (Nat.add_comm (length line)).
    + apply loop_body_line. lia.
Qed.

End Loop.

(** ** Complete lines *)

Section CompleteLines.

Lemma filter_all {A : Type} (p : A -> bool) (l : list A) :
  forallb p l = true -> filter p l = l.
Proof.
  induction l as [|a l IH]; simpl; [reflexivity|].
  destruct (p a); simpl; [|discriminate].
  intros H. now rewrite IH.
Qed.

Lemma complete_cons (c : ascii) (l : text) :
  l <> [] -> complete (c :: l) = complete l.
Proof. destruct l; [congruence|reflexivity]. Qed.

(** Every line of a file that ends with a newline is complete. *)
Lemma readlines_complete (s : text) :
  complete s = true -> forallb complete (readlines s) = true.
Proof.
  induction s as [|c s IH]; [discriminate|].
  destruct s as [|d s].
  - simpl. intros H. rewrite H. simpl. now rewrite H.
  - rewrite complete_cons by discriminate. intros H. specialize (IH H).
    change (readlines (c :: d :: s)) with
      (if is_newline c then [c] :: readlines (d :: s)
       else match readlines (d :: s) with
            | [] => [[c]]
            | l :: ls => (c :: l) :: ls
            end).
    destruct (is_newline c) eqn:Hc.
    + cbn [forallb]. change (complete [c]) with (is_newline c).
      rewrite Hc. exact IH.
    + destruct (readlines (d :: s)) as [|l ls] eqn:E;
        [apply readlines_nil in E; discriminate|].
      cbn [forallb] in *. apply andb_true_iff in IH as [Hl Hls].
      rewrite complete_cons by (intros ->; discriminate).
      now rewrite Hl, Hls.
Qed.

Lemma up_to_last_newline_complete (s : text) :
  complete s = true -> up_to_last_newline s = s.
Proof.
  intros H. unfold up_to_last_newline, complete_lines.
  rewrite filter_all by now apply readlines_complete.
  apply concat_readlines.
Qed.

Lemma complete_nonempty (l : text) : complete l = true -> l <> [].
Proof. destruct l; [discriminate|discriminate]. Qed.

Lemma complete_app (a b : text) : b <> [] -> complete (a ++ b) = complete b.
Proof.
  intros Hb. induction a as [|c a IH]; [reflexivity|].
  simpl app. rewrite complete_cons; [exact IH|].
  destruct a; [exact Hb|discriminate].
Qed.

(** The content up to the last newline-terminated line is empty or ends
    with a newline. *)
Lemma up_to_last_newline_ends (s : text) :
  up_to_last_newline s = [] \/ complete (up_to_last_newline s) = true.
Proof.
  unfold up_to_last_newline, complete_lines.
  induction (readlines s) as [|l ls IH]; [now left|].
  simpl filter. destruct (complete l) eqn:El; [|exact IH].
  right. simpl concat. destruct IH as [-> | IH].
  - now rewrite app_nil_r.
  - rewrite complete_app; [exact IH|now apply complete_nonempty].
Qed.

(** A text is its own content up to the last newline-terminated line
    exactly when it is empty or ends with a newline. *)
Lemma up_to_last_newline_fixed (s : text) :
  up_to_last_newline s = s <-> s = [] \/ complete s = true.
Proof.
  split.
  - intros H. rewrite <- H at 1. rewrite <- H at 2. apply up_to_last_newline_ends.
  - intros [-> | H]; [reflexivity|now apply up_to_last_newline_complete].
Qed.

End CompleteLines.

(** ** C1: what the loop prints while the file only grows *)

(** C1, as stated, fails: a file that receives the two characters [ab]
    without a newline has no newline-terminated line, so its content up to the
    last newline-terminated line is empty; the loop prints [ab] all the
    same. *)
Lemma C1_unterminated_tail_printed :
  concat (stdout (trace (follow 1 (map quiet (grow [] [text_of "ab"])) 0)))
    = text_of "ab" /\
  up_to_last_newline ([] ++ concat [text_of "ab"]) = [].
Proof. split; reflexivity. Qed.

(** C1, amended. The file holds the plain text [f], the cursor is at [pos],
    and the appends [cs], plain text too, arrive one before each poll. Then
    (1) the loop stays alive, prints no truncation marker, and the
    concatenation of what it prints is the final content from [pos] to the
    cursor, in file order, nothing twice and nothing left out; (2) once the
    appends stop, a few more polls print everything up to the end of the file,
    an unterminated last line included; (3) so the output is the content up to
    the last newline-terminated line if and only if what lay ahead of the
    cursor is empty or ends with a newline. *)
Theorem C1_follow_prints_appended_content
    (interval : Q) (f : text) (cs : list text) (pos n : nat) :
  plain f = true ->
  forallb plain cs = true ->
  pos <= length f ->
  (exists tr pos',
     follow interval (map quiet (grow f cs)) pos = (tr, Ok pos') /\
     pos <= pos' <= length (f ++ concat cs) /\
     concat (stdout tr) = segment (f ++ concat cs) pos pos' /\
     markers tr = 0) /\
  (length (f ++ concat cs) - pos < n ->
   exists tr,
     follow interval
       (map quiet (grow f cs) ++ repeat (quiet (f ++ concat cs)) n) pos
       = (tr, Ok (length (f ++ concat cs))) /\
     concat (stdout tr) = skipn pos (f ++ concat cs) /\
     markers tr = 0 /\
     (concat (stdout tr) = up_to_last_newline (skipn pos (f ++ concat cs))
      <-> skipn pos (f ++ concat cs) = []
          \/ complete (skipn pos (f ++ concat cs)) = true)).
Proof.
  intros _ _ Hpos.
  destruct (follow_grow interval f cs pos Hpos)
    as (tr1 & pos1 & Hrun1 & Hb1 & Hout1 & Herr1).
  split.
  - exists tr1, pos1. repeat split; try tauto.
    unfold markers. now rewrite Herr1.
  - intros Hn. set (final := f ++ concat cs) in *.
    destruct (follow_drain interval final n pos1) as (tr2 & Hrun2 & Hout2 & Herr2);
      try lia.
    exists (tr1 ++ tr2).
    assert (Hcat : concat (stdout (tr1 ++ tr2)) = skipn pos final).
    { rewrite stdout_app, concat_app, Hout1, Hout2, concat_readlines.
      rewrite <- (segment_to_end final pos1), <- (segment_to_end final pos).
      apply segment_join; lia. }
    split; [|split; [|split]].
    + rewrite follow_app, Hrun1, bind_ok, Hrun2. reflexivity.
    + exact Hcat.
    + unfold markers. now rewrite stderr_app, Herr1, Herr2.
    + rewrite Hcat. rewrite <- up_to_last_newline_fixed.
      split; intros H; symmetry; exact H.
Qed.

(** The line [a] is already read; the line [b] and the fragment [c] arrive. *)
Lemma C1_follow_prints_appended_content_witness :
  exists tr,
    follow 1 (map quiet (grow (ln "a") [ln "b"; text_of "c"])
              ++ repeat (quiet (ln "a" ++ concat [ln "b"; text_of "c"])) 4) 2
      = (tr, Ok 5) /\
    concat (stdout tr) = ln "b" ++ text_of "c".
Proof.
  destruct (C1_follow_prints_appended_content 1 (ln "a") [ln "b"; text_of "c"] 2 4)
    as [_ H]; [reflexivity|reflexivity|simpl; lia|].
  destruct H as (tr & Hrun & Hout & _); [simpl; lia|].
  exists tr. split; [exact Hrun|exact Hout].
Defined.

(** ** C2: a line that arrives in two pieces *)

Lemma skipn_length_app {A : Type} (l r : list A) : skipn (length l) (l ++ r) = r.
Proof.
  now rewrite skipn_app, skipn_all, Nat.sub_diag.
Qed.

(** C2, as stated, fails: [partial] is printed by the first poll after it
    was written, before any newline; when the line is completed to
    [partial-end] the rest is printed as a second piece. *)
Lemma C2_partial_line_printed_in_two_pieces :
  follow 1 [quiet (text_of "partial"); quiet (ln "partial-end")] 0
  = ([Stdout (text_of "partial"); Stdout (ln "-end")], Ok 12).
Proof. reflexivity. Qed.

(** C2, amended. Everything is plain text. The cursor is at the end of [f]
    and the non-empty text [part], which holds no newline, is appended. The
    next poll prints [part] as it stands and moves the cursor to the end of
    the file; polls on the unchanged file then only sleep; when [rest] and a
    newline complete the line, the next poll prints [rest] and the newline.
    The line reaches the output in two pieces whose concatenation is the
    line, each character once. *)
Theorem C2_partial_line_printed_as_it_arrives
    (interval : Q) (f part rest more : text) :
  plain f = true ->
  plain part = true ->
  plain rest = true ->
  plain more = true ->
  part <> [] ->
  existsb is_newline part = false ->
  existsb is_newline rest = false ->
  loop_body interval (quiet (f ++ part)) (length f)
    = ([Stdout part], Ok (length (f ++ part))) /\
  loop_body interval (quiet (f ++ part)) (length (f ++ part))
    = ([Sleep interval], Ok (length (f ++ part))) /\
  loop_body interval (quiet ((f ++ part) ++ rest ++ newline :: more))
      (length (f ++ part))
    = ([Stdout (rest ++ [newline])],
       Ok (length ((f ++ part) ++ rest ++ [newline]))) /\
  part ++ (rest ++ [newline]) = take_line (part ++ rest ++ newline :: more).
Proof.
  intros _ _ _ _ Hpart Hp Hr. unfold quiet.
  assert (Lp : 0 < length part) by (destruct part; [congruence|simpl; lia]).
  repeat split.
  - rewrite loop_body_line by (rewrite length_app; lia).
    rewrite skipn_length_app, (take_line_no_newline part Hp).
    now rewrite length_app.
  - apply loop_body_wait; lia.
  - rewrite loop_body_line by (rewrite !length_app; simpl; lia).
    rewrite skipn_length_app, (take_line_terminated rest more Hr).
    now rewrite (length_app (f ++ part)).
  - rewrite app_assoc, (app_assoc part rest).
    symmetry. apply take_line_terminated.
    rewrite existsb_app, Hp, Hr. reflexivity.
Qed.

(** The fragment [partial] after the line [x], completed by [-end]. *)
Lemma C2_partial_line_printed_as_it_arrives_witness :
  loop_body 1 (quiet (ln "x" ++ text_of "partial")) 2
    = ([Stdout (text_of "partial")], Ok 9) /\
  loop_body 1 (quiet ((ln "x" ++ text_of "partial") ++ text_of "-end" ++ newline :: [])) 9
    = ([Stdout (ln "-end")], Ok 14).
Proof.
  destruct (C2_partial_line_printed_as_it_arrives 1 (ln "x") (text_of "partial")
              (text_of "-end") [])
    as (H1 & _ & H3 & _);
    [reflexivity|reflexivity|reflexivity|reflexivity
    |discriminate|reflexivity|reflexivity|].
  split; [exact H1|exact H3].
Defined.

(** ** C3: truncation *)

(** C3, as stated, fails when the truncation keeps part of the file. The file
    holds the lines [a] and [b], both printed by the initial window; it is then
    truncated to its first two characters (the line [a]) and nothing is
    appended. The loop prints the marker and then prints the line [a] a second
    time. *)
Lemma C3_surviving_content_printed_again :
  trace (tail_file "app.log" 1 10
           (session (ln "a" ++ ln "b") (repeat (quiet (firstn 2 (ln "a" ++ ln "b"))) 3)))
  = [Stdout (ln "a"); Stdout (ln "b"); Stderr (Monitoring "app.log");
     Stderr Truncated; Stdout (ln "a"); Sleep 1].
Proof. reflexivity. Qed.

(** C3, amended. Everything is plain text. (1) An iteration prints the
    truncation marker exactly when [readline] returns nothing and the size
    found is strictly below the cursor. (2) The loop has read the file, which
    held [old], to its end, so that the handle has nothing buffered. The file
    is then cut in place to its first [keep] characters and extended by [c],
    and is shorter than the cursor. The next iteration prints the marker, on
    standard error and with nothing on standard output; the following ones
    print every line of the file as it now stands, from offset 0: the
    surviving characters first (again, if they had been printed before), then
    [c]; nothing else, and no second marker. *)
Theorem C3_truncation_detected_and_replayed
    (interval : Q) (old c : text) (keep n : nat) :
  plain old = true ->
  plain c = true ->
  length (firstn keep old ++ c) < length old ->
  length (firstn keep old ++ c) < n ->
  (forall (f : text) (size : nat) (w : result unit) (cursor : nat),
     plain f = true ->
     (In (Stderr Truncated)
         (trace (loop_body interval
                   {| at_read := Ok f; at_size := Ok size; at_sleep := w |} cursor))
      <-> fst (readline f cursor) = [] /\ size < cursor)) /\
  loop_body interval (quiet (firstn keep old ++ c)) (length old)
    = ([Stderr Truncated], Ok 0) /\
  exists tr,
    follow interval (repeat (quiet (firstn keep old ++ c)) (S n)) (length old)
      = (Stderr Truncated :: tr, Ok (length (firstn keep old ++ c))) /\
    stdout tr = readlines (firstn keep old ++ c) /\
    stderr tr = [].
Proof.
  intros _ _ Hpos Hn. split; [|split].
  - intros f size w cursor _. unfold loop_body. cbn [at_read at_size at_sleep].
    rewrite ask_ok.
    destruct (readline f cursor) as [[|ch line] pos1]; cbn [fst].
    + rewrite ask_ok. destruct (size <? cursor) eqn:Hs.
      * apply Nat.ltb_lt in Hs. simpl. tauto.
      * apply Nat.ltb_ge in Hs. destruct w; simpl; split.
        -- intros [H|[]]; discriminate.
        -- lia.
        -- intros [H|[]]; discriminate.
        -- lia.
    + simpl. split.
      * intros [H|[]]; discriminate.
      * intros [H _]; discriminate.
  - apply loop_body_truncated; lia.
  - set (g := firstn keep old ++ c) in *.
    destruct (follow_drain interval g n 0) as (tr & Hrun & Hout & Herr); try lia.
    exists tr. simpl repeat.
    rewrite (follow_step interval _ _ (length old) 0 [Stderr Truncated]).
    + rewrite Hrun. simpl. auto.
    + apply loop_body_truncated; lia.
Qed.

(** The file is emptied and the line [e] written, with the cursor at 4. *)
Lemma C3_truncation_detected_and_replayed_witness :
  exists tr,
    follow 1 (repeat (quiet (firstn 0 (ln "a" ++ ln "b") ++ ln "e")) 4)
      (length (ln "a" ++ ln "b"))
      = (Stderr Truncated :: tr, Ok 2) /\
    stdout tr = [ln "e"].
Proof.
  destruct (C3_truncation_detected_and_replayed 1 (ln "a" ++ ln "b") (ln "e") 0 3)
    as (_ & _ & tr & Hrun & Hout & _);
    [reflexivity|reflexivity|simpl; lia|simpl; lia|].
  exists tr. split; [exact Hrun|exact Hout].
Defined.

(** ** The cursor and the size of the file *)

Lemma grow_firstn (f : text) (cs : list text) (k : nat) :
  firstn k (map quiet (grow f cs)) = map quiet (grow f (firstn k cs)).
Proof.
  revert f k. induction cs as [|c cs IH]; intros f [|k]; simpl; try reflexivity.
  now rewrite IH.
Qed.

(** On plain text the cursor, which is then the offset [file.tell()]
    returns, stays inside a file that only grows. (1) One iteration: if the
    cursor is inside the file that [readline] sees and the size found
    afterwards is not smaller than that file, the iteration ends with the
    cursor between its old value and the size found. (2) The loop: after any
    number [k] of iterations the cursor is at most the size the file had at
    the last poll. (3) After a truncation that left the file shorter than the
    cursor, the next iteration puts the cursor back to 0. Text with a
    carriage return is another matter: [file.tell()] is then no offset, and
    this development says nothing about it. *)
Lemma cursor_within_plain_file
    (interval : Q) (f : text) (cs : list text) (pos size k : nat) :
  plain f = true ->
  forallb plain cs = true ->
  pos <= length f ->
  length f <= size ->
  (exists tr pos',
     loop_body interval
       {| at_read := Ok f; at_size := Ok size; at_sleep := Ok tt |} pos
       = (tr, Ok pos') /\
     pos <= pos' <= size) /\
  (exists tr pos',
     follow interval (firstn k (map quiet (grow f cs))) pos = (tr, Ok pos') /\
     pos' <= length (f ++ concat (firstn k cs))) /\
  (forall (g : text) (cursor : nat),
     plain g = true ->
     length g < cursor ->
     loop_body interval (quiet g) cursor = ([Stderr Truncated], Ok 0)).
Proof.
  intros _ _ Hpos Hsize. repeat split.
  - destruct (Nat.eq_dec pos (length f)) as [E|Hne].
    + exists [Sleep interval], size.
      rewrite loop_body_wait by lia. split; [reflexivity|lia].
    + exists [Stdout (take_line (skipn pos f))],
             (pos + length (take_line (skipn pos f))).
      rewrite loop_body_line by lia.
      pose proof (take_line_length (skipn pos f)) as L.
      rewrite length_skipn in L. split; [reflexivity|lia].
  - rewrite grow_firstn.
    destruct (follow_grow interval f (firstn k cs) pos Hpos)
      as (tr & pos' & Hrun & Hb & _).
    exists tr, pos'. split; [exact Hrun|lia].
  - intros g cursor _ Hg. apply loop_body_truncated; lia.
Qed.

(** ** The start of a session *)

Section Start.

Variable interval : Q.

Lemma slice_last_n {A : Type} (l : list A) (n : Z) :
  (0 < n)%Z -> slice_from l (- n) = last_n (Z.to_nat n) l.
Proof.
  intros Hn. unfold slice_from, last_n.
  destruct (- n <? 0)%Z eqn:E; [|apply Z.ltb_ge in E; lia].
  f_equal. lia.
Qed.


Lemma initial_phase_window (n : Z) (f : text) (ps : list poll) :
  (0 < n)%Z ->
  initial_phase n (session f ps)
  = (map Stdout (last_n (Z.to_nat n) (readlines f)), Ok (length f)).
Proof.
  intros Hn. unfold initial_phase, session. cbn [at_open at_readlines].
  rewrite ask_ok. destruct (n >? 0)%Z eqn:E; [|rewrite Z.gtb_ltb in E; apply Z.ltb_ge in E; lia].
  rewrite ask_ok, for_each_emit, slice_last_n by exact Hn.
  simpl. now rewrite app_nil_r.
Qed.

Lemma initial_phase_skip (n : Z) (size : nat) (r : result text) (ps : list poll) :
  (n <= 0)%Z ->
  initial_phase n {| path_exists := true; at_open := Ok size;
                     at_readlines := r; polls := ps |}
  = ([], Ok size).
Proof.
  intros Hn. unfold initial_phase. cbn [at_open]. rewrite ask_ok.
  destruct (n >? 0)%Z eqn:E; [rewrite Z.gtb_ltb in E; apply Z.ltb_lt in E; lia|reflexivity].
Qed.

(** Whatever [lines] is, a session on a file that holds [f] while it starts
    enters the loop with the handle at the end of [f]. *)
Lemma initial_phase_session (n : Z) (f : text) (ps : list poll) :
  exists shown,
    initial_phase n (session f ps) = (map Stdout shown, Ok (length f)).
Proof.
  destruct (Z.ltb_spec 0 n) as [Hn|Hn].
  - eexists. now apply initial_phase_window.
  - exists []. unfold session. now apply initial_phase_skip.
Qed.

(** The body of [tail_file] on such a session: the window, the banner, the
    loop from the end of [f]. *)
Lemma tail_file_body_session (name : string) (n : Z) (f : text) (ps : list poll) :
  tail_file_body name interval n (session f ps)
  = (trace (initial_phase n (session f ps))
       ++ Stderr (Monitoring name) :: trace (follow interval ps (length f)),
     outcome (follow interval ps (length f))).
Proof.
  destruct (initial_phase_session n f ps) as (shown & Hinit).
  unfold tail_file_body. rewrite Hinit. cbn [session path_exists negb polls].
  destruct (follow interval ps (length f)) as [tr r] eqn:E.
  unfold bind, ret, emit. rewrite E. reflexivity.
Qed.

(** A session whose loop is still running has not exited. *)
Lemma tail_file_running (name : string) (n : Z) (f : text) (ps : list poll)
    (pos : nat) :
  outcome (follow interval ps (length f)) = Ok pos ->
  tail_file name interval n (session f ps)
  = tail_file_body name interval n (session f ps).
Proof.
  intros H. unfold tail_file. rewrite tail_file_body_session, H. reflexivity.
Qed.

(** An exception in the loop reaches the handler. *)
Lemma tail_file_raises (name : string) (n : Z) (f : text) (ps : list poll)
    (e : exn) :
  outcome (follow interval ps (length f)) = Raise e ->
  tail_file name interval n (session f ps)
  = (trace (tail_file_body name interval n (session f ps)) ++ trace (handler e),
     outcome (handler e)).
Proof.
  intros H. unfold tail_file. rewrite tail_file_body_session, H.
  unfold try_except. cbn [trace outcome fst snd]. now destruct (handler e).
Qed.

(** The loop stops at the first iteration that raises; later polls are never
    looked at. *)
Lemma follow_raises (before after : list poll) (p : poll) (pos0 pos : nat)
    (tr tr_p : list event) (e : exn) :
  follow interval before pos0 = (tr, Ok pos) ->
  loop_body interval p pos = (tr_p, Raise e) ->
  follow interval (before ++ p :: after) pos0 = (tr ++ tr_p, Raise e).
Proof.
  intros Hb Hp. rewrite follow_app, Hb, bind_ok. simpl. now rewrite Hp.
Qed.

End Start.

(** ** C4: errors during a poll *)




(** ** C5: the initial window *)

Lemma last_n_split {A : Type} (n : nat) (l : list A) :
  l = firstn (length l - n) l ++ last_n n l /\
  length (last_n n l) = Nat.min n (length l).
Proof.
  unfold last_n. split.
  - symmetry. apply firstn_skipn.
  - rewrite length_skipn. lia.
Qed.

(** C5, as stated, fails on a file whose last line is unterminated: of the
    file [a\nb\nc], a window of 2 prints [b\n] and the fragment [c], while the
    last two complete lines are [a\n] and [b\n]. *)
Lemma C5_window_counts_unterminated_tail :
  stdout (trace (initial_phase 2 (session (ln "a" ++ ln "b" ++ text_of "c") [])))
    = [ln "b"; text_of "c"] /\
  last_n 2 (complete_lines (ln "a" ++ ln "b" ++ text_of "c")) = [ln "a"; ln "b"].
Proof. split; reflexivity. Qed.

(** C5, amended. For a positive count [n] the initial window prints, in file
    order and as the only output of the phase, the last [n] lines as
    [readlines] splits the file, all of them when there are fewer; an
    unterminated tail counts as a line. The lines printed are the end of the
    file's content. When the file ends with a newline they are the last [n]
    complete lines. The phase only reads: the handle ends at the end of the
    file. *)
Theorem C5_initial_window
    (n : Z) (f : text) (ps : list poll) :
  (0 < n)%Z ->
  exists skipped shown,
    readlines f = skipped ++ shown /\
    initial_phase n (session f ps) = (map Stdout shown, Ok (length f)) /\
    length shown = Nat.min (Z.to_nat n) (length (readlines f)) /\
    concat skipped ++ concat shown = f /\
    (length (readlines f) < Z.to_nat n -> shown = readlines f) /\
    (complete f = true -> shown = last_n (Z.to_nat n) (complete_lines f)).
Proof.
  intros Hn.
  destruct (last_n_split (Z.to_nat n) (readlines f)) as [Hsplit Hlen].
  exists (firstn (length (readlines f) - Z.to_nat n) (readlines f)),
         (last_n (Z.to_nat n) (readlines f)).
  repeat split.
  - exact Hsplit.
  - now apply initial_phase_window.
  - exact Hlen.
  - rewrite <- concat_app.
    transitivity (concat (readlines f)); [|apply concat_readlines].
    f_equal. symmetry. exact Hsplit.
  - intros Hfew. unfold last_n.
    replace (length (readlines f) - Z.to_nat n) with 0 by lia. reflexivity.
  - intros Hc. unfold complete_lines.
    now rewrite filter_all by now apply readlines_complete.
Qed.

(** A window of two on a file of three lines. *)
Lemma C5_initial_window_witness :
  exists skipped shown,
    readlines (ln "a" ++ ln "b" ++ ln "c") = skipped ++ shown /\
    initial_phase 2 (session (ln "a" ++ ln "b" ++ ln "c") [])
      = (map Stdout shown, Ok 6) /\
    length shown = 2.
Proof.
  destruct (C5_initial_window 2 (ln "a" ++ ln "b" ++ ln "c") [])
    as (skipped & shown & H1 & H2 & H3 & _); [lia|].
  exists skipped, shown. repeat split; [exact H1|exact H2|exact H3].
Defined.

(** ** C6: no initial window *)

Lemma segment_appended (f c : text) (pos : nat) :
  segment (f ++ c) (length f) pos = firstn (pos - length f) c.
Proof. unfold segment. now rewrite skipn_length_app. Qed.

(** C6, as stated, fails: with [lines = 0] on a file that holds the lines
    [a] and [b], nothing is appended and the file is cut to its first line.
    The loop prints the marker and then the line [a], which was in the file
    when the session started. *)
Lemma C6_line_present_at_start_printed_after_truncation :
  tail_file "app.log" 1 0
    (session (ln "a" ++ ln "b") (repeat (quiet (firstn 2 (ln "a" ++ ln "b"))) 3))
  = ([Stderr (Monitoring "app.log"); Stderr Truncated; Stdout (ln "a"); Sleep 1],
     Ok 2).
Proof. reflexivity. Qed.

(** C6, amended. The file holds plain text. (1) With [lines = 0] the initial
    phase prints nothing and leaves the handle at the size found by the seek
    to the end; [readlines] is not called, so the result is the same whatever
    the file holds or whatever a read of it would have raised. (2) The session
    then prints the banner and, while the file only grows, only characters of
    the appended content, from its first one on: nothing that was in the file
    at the start. (3) When instead the file is cut in place to fewer
    characters, the loop prints the marker and then the lines that are left,
    which were in the file at the start. *)
Theorem C6_no_window_when_lines_is_zero
    (name : string) (interval : Q) (f : text) (r : result text)
    (ps : list poll) (cs : list text) (keep n : nat) :
  plain f = true ->
  forallb plain cs = true ->
  initial_phase 0 {| path_exists := true; at_open := Ok (length f);
                     at_readlines := r; polls := ps |}
    = ([], Ok (length f)) /\
  (exists tr pos',
     tail_file name interval 0 (session f (map quiet (grow f cs)))
       = (Stderr (Monitoring name) :: tr, Ok pos') /\
     concat (stdout tr) = firstn (pos' - length f) (concat cs) /\
     stderr tr = []) /\
  (keep < length f -> keep < n ->
   exists tr,
     tail_file name interval 0
       (session f (repeat (quiet (firstn keep f)) (S n)))
       = (Stderr (Monitoring name) :: Stderr Truncated :: tr,
          Ok (length (firstn keep f))) /\
     stdout tr = readlines (firstn keep f)).
Proof.
  intros _ _. split; [now apply initial_phase_skip|]. split.
  - destruct (follow_grow interval f cs (length f) (le_n _))
      as (tr & pos' & Hrun & Hb & Hout & Herr).
    exists tr, pos'.
    rewrite (tail_file_running interval name 0 f _ pos') by now rewrite Hrun.
    rewrite tail_file_body_session, Hrun. unfold session.
    rewrite initial_phase_skip by lia. cbn [trace outcome fst snd List.app].
    repeat split; [|exact Herr].
    now rewrite Hout, segment_appended.
  - intros Hkeep Hn. set (g := firstn keep f).
    assert (Lg : length g = keep) by (unfold g; apply firstn_length_le; lia).
    destruct (follow_drain interval g n 0) as (tr & Hrun & Hout & Herr); try lia.
    assert (Hfollow : follow interval (repeat (quiet g) (S n)) (length f)
                      = (Stderr Truncated :: tr, Ok (length g))).
    { simpl repeat.
      rewrite (follow_step interval _ _ (length f) 0 [Stderr Truncated]).
      - now rewrite Hrun.
      - apply loop_body_truncated; lia. }
    exists tr.
    rewrite (tail_file_running interval name 0 f _ (length g))
      by now rewrite Hfollow.
    rewrite tail_file_body_session, Hfollow. unfold session.
    rewrite initial_phase_skip by lia. cbn [trace outcome fst snd List.app].
    split; [reflexivity|exact Hout].
Qed.

(** The file holds one line; the lines [b] and [c] are appended. *)
Lemma C6_no_window_when_lines_is_zero_witness :
  exists tr pos',
    tail_file "app.log" 1 0
      (session (ln "a") (map quiet (grow (ln "a") [ln "b"; ln "c"])))
      = (Stderr (Monitoring "app.log") :: tr, Ok pos') /\
    concat (stdout tr) = firstn (pos' - 2) (ln "b" ++ ln "c").
Proof.
  destruct (C6_no_window_when_lines_is_zero "app.log" 1 (ln "a") (Ok []) []
              [ln "b"; ln "c"] 0 0)
    as (_ & (tr & pos' & Hrun & Hout & _) & _); [reflexivity|reflexivity|].
  exists tr, pos'. split; [exact Hrun|exact Hout].
Defined.

(** ** C9: a negative count *)

(** C9. A negative [lines] fails the test [lines > 0] just as 0 does: the
    initial phase, and with it the whole session, behaves as with
    [lines = 0]; the phase prints nothing, and when [open] succeeded it raises
    nothing and leaves the handle at the size found. *)
Theorem C9_negative_count_is_zero_count
    (name : string) (interval : Q) (n : Z) (env : environment) :
  (n < 0)%Z ->
  initial_phase n env = initial_phase 0 env /\
  tail_file name interval n env = tail_file name interval 0 env /\
  stdout (trace (initial_phase n env)) = [] /\
  (forall size, at_open env = Ok size -> initial_phase n env = ([], Ok size)).
Proof.
  intros Hn.
  assert (E : (n >? 0)%Z = false).
  { rewrite Z.gtb_ltb. apply Z.ltb_ge. lia. }
  assert (Hsame : initial_phase n env = initial_phase 0 env).
  { unfold initial_phase. now rewrite E. }
  repeat split.
  - exact Hsame.
  - unfold tail_file, tail_file_body. now rewrite Hsame.
  - unfold initial_phase. rewrite E.
    destruct (at_open env) as [size|e]; reflexivity.
  - intros size Ho. unfold initial_phase. rewrite E, Ho. reflexivity.
Qed.

(** [lines = -3] on a file of two lines. *)
Lemma C9_negative_count_is_zero_count_witness :
  initial_phase (-3) (session (ln "a" ++ ln "b") []) = ([], Ok 4).
Proof.
  destruct (C9_negative_count_is_zero_count "app.log" 1 (-3)
              (session (ln "a" ++ ln "b") []))
    as (_ & _ & _ & H); [lia|].
  apply H. reflexivity.
Defined.

(** ** C10: where the loop starts *)




(** ** C7: command line and exit status *)

Section CommandLine.

Lemma not_flag_eqb (t s : string) :
  is_flag t = false -> is_flag s = true -> String.eqb t s = false.
Proof.
  destruct t as [|c t], s as [|d s]; simpl; try reflexivity; try discriminate.
  intros Hc Hd. apply Ascii.eqb_eq in Hd. subst d. now rewrite Hc.
Qed.

Lemma parse_positional (t : string) (rest : list string) (n : Z) (s : Q) :
  is_flag t = false -> parse (t :: rest) None n s = parse rest (Some t) n s.
Proof.
  intros H. cbn [parse].
  rewrite !(not_flag_eqb t) by (exact H || reflexivity).
  cbn [orb]. now rewrite H.
Qed.

Lemma parse_lines (flag value : string) (rest : list string)
    (name : option string) (n k : Z) (s : Q) :
  flag = "-n"%string \/ flag = "--lines"%string ->
  int value = Some k ->
  parse (flag :: value :: rest) name n s = parse rest name k s.
Proof.
  intros [-> | ->] H; cbn [parse String.eqb Ascii.eqb Bool.eqb andb orb];
    now rewrite H.
Qed.

Lemma parse_sleep_interval (flag value : string) (rest : list string)
    (name : option string) (n : Z) (s q : Q) :
  flag = "-s"%string \/ flag = "--sleep-interval"%string ->
  float value = Some q ->
  parse (flag :: value :: rest) name n s = parse rest name n q.
Proof.
  intros [-> | ->] H; cbn [parse String.eqb Ascii.eqb Bool.eqb andb orb];
    now rewrite H.
Qed.

(** The initial phase does not look at the polls. *)
Lemma initial_phase_polls (n : Z) (f : text) (ps qs : list poll) :
  initial_phase n (session f ps) = initial_phase n (session f qs).
Proof. reflexivity. Qed.

Lemma exit_code_handler (tr : list event) (e : exn) :
  exit_code (tr ++ trace (handler e), outcome (handler e))
  = Some match e with
         | KeyboardInterrupt => 0%Z
         | OSError _ => 1%Z
         | SystemExit code => code
         end.
Proof. destruct e; reflexivity. Qed.

End CommandLine.

(** C7. The command line: a positional file name alone gives [lines = 10]
    and [interval = 1.0]; [-n] or [--lines] sets the count, [-s] or
    [--sleep-interval] the interval, before or after the file name. The exit
    status, for any accepted command line: 1, after the not-found notice, when
    the path does not exist at the start; 1 when [open] raises an error; 0
    when an iteration of the running loop is interrupted from the keyboard; 1
    when an iteration raises an error; and no exit at all while the loop
    runs. *)
Theorem C7_command_line_and_exit_status
    (name n s : string) (k : Z) (q : Q) (argv : list string) (a : args)
    (f : text) (before after : list poll) (p : poll) (pos : nat)
    (tr tr_p : list event) :
  is_flag name = false ->
  int n = Some k ->
  float s = Some q ->
  parse_args argv = Some a ->
  follow (interval a) before (length f) = (tr, Ok pos) ->
  (parse_args [name]
     = Some {| filename := name; interval := 1; lines := 10 |} /\
   parse_args ["-n"%string; n; name]
     = Some {| filename := name; interval := 1; lines := k |} /\
   parse_args ["--lines"%string; n; name]
     = Some {| filename := name; interval := 1; lines := k |} /\
   parse_args ["-s"%string; s; name]
     = Some {| filename := name; interval := q; lines := 10 |} /\
   parse_args ["--sleep-interval"%string; s; name]
     = Some {| filename := name; interval := q; lines := 10 |} /\
   parse_args [name; "-n"%string; n; "-s"%string; s]
     = Some {| filename := name; interval := q; lines := k |}) /\
  (forall env : environment,
     path_exists env = false ->
     main argv env
     = ([Stderr (NotFound (filename a))], Raise (SystemExit 1))) /\
  (forall (env : environment) (err : errno),
     path_exists env = true -> at_open env = Raise (OSError err) ->
     main argv env = ([Stderr (Failed err)], Raise (SystemExit 1))) /\
  (loop_body (interval a) p pos = (tr_p, Raise KeyboardInterrupt) ->
   exit_code (main argv (session f (before ++ p :: after))) = Some 0%Z /\
   stderr (trace (main argv (session f (before ++ p :: after))))
   = stderr (trace (main argv (session f before))) ++ stderr tr_p ++ [Stopped]) /\
  (forall err : errno,
     loop_body (interval a) p pos = (tr_p, Raise (OSError err)) ->
     exit_code (main argv (session f (before ++ p :: after))) = Some 1%Z) /\
  exit_code (main argv (session f before)) = None.
Proof.
  intros Hname Hn Hs Hargs Hb.
  assert (Hraise : forall e,
    loop_body (interval a) p pos = (tr_p, Raise e) ->
    main argv (session f (before ++ p :: after))
    = (trace (tail_file_body (filename a) (interval a) (lines a)
                (session f (before ++ p :: after))) ++ trace (handler e),
       outcome (handler e))).
  { intros e Hp. unfold main. rewrite Hargs.
    apply tail_file_raises.
    now rewrite (follow_raises _ before after p _ pos tr tr_p e Hb Hp). }
  assert (Halive : main argv (session f before)
    = tail_file_body (filename a) (interval a) (lines a) (session f before)).
  { unfold main. rewrite Hargs. apply (tail_file_running _ _ _ _ _ pos).
    now rewrite Hb. }
  split; [|split; [|split; [|split; [|split]]]].
  - unfold parse_args. repeat split.
    + now rewrite parse_positional.
    + rewrite (parse_lines _ _ _ _ _ k) by auto. now rewrite parse_positional.
    + rewrite (parse_lines _ _ _ _ _ k) by auto. now rewrite parse_positional.
    + rewrite (parse_sleep_interval _ _ _ _ _ _ q) by auto.
      now rewrite parse_positional.
    + rewrite (parse_sleep_interval _ _ _ _ _ _ q) by auto.
      now rewrite parse_positional.
    + rewrite parse_positional by exact Hname.
      rewrite (parse_lines _ _ _ _ _ k) by auto.
      now rewrite (parse_sleep_interval _ _ _ _ _ _ q) by auto.
  - intros env He. unfold main. rewrite Hargs.
    unfold tail_file, tail_file_body. rewrite He. reflexivity.
  - intros env err He Ho. unfold main. rewrite Hargs.
    unfold tail_file, tail_file_body, initial_phase. rewrite He, Ho. reflexivity.
  - intros Hp. rewrite (Hraise _ Hp). split; [apply exit_code_handler|].
    rewrite Halive, !tail_file_body_session, Hb.
    rewrite (follow_raises _ before after p _ pos tr tr_p _ Hb Hp).
    cbn [trace outcome fst snd handler].
    rewrite !stderr_app. cbn [stderr]. rewrite !stderr_app.
    rewrite (initial_phase_polls (lines a) f (before ++ p :: after) before).
    change (stderr (trace (emit (Stderr Stopped) ;; sys_exit 0))) with [Stopped].
    rewrite <- !app_assoc, <- !app_comm_cons, <- !app_assoc. reflexivity.
  - intros err Hp. rewrite (Hraise _ Hp). apply exit_code_handler.
  - rewrite Halive, tail_file_body_session, Hb. reflexivity.
Qed.

(** Both options after the file name, and an interrupt during the first sleep. *)
Lemma C7_command_line_and_exit_status_witness :
  parse_args ["app.log"; "-n"; "20"; "-s"; "0.5"]%string
    = Some {| filename := "app.log"; interval := 0.5; lines := 20 |} /\
  exit_code
    (main ["app.log"]%string
       (session (ln "a")
          ([quiet (ln "a")]
           ++ {| at_read := Ok (ln "a"); at_size := Ok 2;
                 at_sleep := Raise KeyboardInterrupt |}
           :: [])))
    = Some 0%Z.
Proof.
  destruct (C7_command_line_and_exit_status "app.log" "20" "0.5" 20 0.5
              ["app.log"]%string
              {| filename := "app.log"; interval := 1; lines := 10 |}
              (ln "a") [quiet (ln "a")] []
              {| at_read := Ok (ln "a"); at_size := Ok 2;
                 at_sleep := Raise KeyboardInterrupt |}
              2 [Sleep 1] [Sleep 1])
    as ((_ & _ & _ & _ & _ & Hparse) & _ & _ & Hint & _);
    try reflexivity.
  split; [exact Hparse|]. apply Hint. reflexivity.
Defined.

(** ** Scenarios *)

(** The file holds three lines and the session starts with a window of two;
    a line is appended; the file is then emptied and a new line written. *)
Example scenario_window_append_truncate :
  tail_file "app.log" 1 2
    (session (ln "a" ++ ln "b" ++ ln "c")
       [quiet (ln "a" ++ ln "b" ++ ln "c" ++ ln "d");
        quiet (ln "a" ++ ln "b" ++ ln "c" ++ ln "d");
        quiet (ln "e"); quiet (ln "e"); quiet (ln "e")])
  = ([Stdout (ln "b"); Stdout (ln "c"); Stderr (Monitoring "app.log");
      Stdout (ln "d"); Sleep 1;
      Stderr Truncated; Stdout (ln "e"); Sleep 1],
     Ok 2).
Proof. reflexivity. Qed.

(** A file rewritten to at least the old cursor between two polls is not
    seen as truncated: the loop reads on from the old offset. *)
Example scenario_rewrite_not_shorter_than_cursor :
  follow 1 [quiet (ln "new" ++ ln "xy")] (length (ln "old"))
  = ([Stdout (ln "xy")], Ok 7).
Proof. reflexivity. Qed.

(** An append that lands after [readline] found nothing and before the seek
    to the end is stepped over: the cursor is at the end of the line [a], the
    line [b] arrives in between, and only the later line [c] is printed. *)
Example scenario_append_between_read_and_seek :
  follow 1
    [{| at_read := Ok (ln "a"); at_size := Ok (length (ln "a" ++ ln "b"));
        at_sleep := Ok tt |};
     quiet (ln "a" ++ ln "b" ++ ln "c")]
    (length (ln "a"))
  = ([Sleep 1; Stdout (ln "c")], Ok 6).
Proof. reflexivity. Qed.

(** An interrupt during the sleep ends the session with status 0. *)
Example scenario_interrupt :
  main ["-n"; "0"; "app.log"]%string
    (session (ln "a")
       [{| at_read := Ok (ln "a"); at_size := Ok 2;
           at_sleep := Raise KeyboardInterrupt |}])
  = ([Stderr (Monitoring "app.log"); Sleep 1; Stderr Stopped],
     Raise (SystemExit 0)).
Proof. reflexivity. Qed.

(** ** Further properties of the command-line tool *)

Section Emissions.

Variable interval : Q.

Lemma one_line_take_line (s : text) : s <> [] -> one_line (take_line s) = true.
Proof.
  induction s as [|c s IH]; intros Hs; [congruence|].
  simpl take_line. destruct (is_newline c) eqn:Hc; [reflexivity|].
  destruct s as [|d s]; [reflexivity|].
  specialize (IH ltac:(discriminate)).
  destruct (take_line (d :: s)) as [|e l] eqn:E; [discriminate|].
  unfold one_line in *. cbn [removelast existsb]. now rewrite Hc.
Qed.

Lemma one_line_nonempty (l : text) : one_line l = true -> l <> [].
Proof. destruct l; [discriminate|discriminate]. Qed.

Lemma readlines_one_line (s : text) : forallb one_line (readlines s) = true.
Proof.
  remember (length s) as n eqn:Hn. revert s Hn.
  induction n as [n IH] using lt_wf_ind. intros s Hn.
  destruct s as [|c s]; [reflexivity|].
  rewrite readlines_unfold by discriminate. cbn [forallb].
  rewrite one_line_take_line by discriminate.
  pose proof (take_line_positive (c :: s) ltac:(discriminate)) as Lp.
  apply (IH (length (skipn (length (take_line (c :: s))) (c :: s)))); [|reflexivity].
  rewrite length_skipn. subst n. simpl length in *. lia.
Qed.

Lemma forallb_skipn {A : Type} (p : A -> bool) (k : nat) (l : list A) :
  forallb p l = true -> forallb p (skipn k l) = true.
Proof.
  intros H. rewrite <- (firstn_skipn k l), forallb_app in H.
  now apply andb_true_iff in H.
Qed.

Lemma loop_body_one_line (p : poll) (pos : nat) :
  forallb one_line (stdout (trace (loop_body interval p pos))) = true.
Proof.
  destruct p as [[f|e] r w]; [|reflexivity].
  unfold loop_body. cbn [at_read at_size at_sleep]. rewrite ask_ok.
  unfold readline. destruct (take_line (skipn pos f)) as [|c l] eqn:E.
  - destruct r as [size|e]; [|reflexivity]. rewrite ask_ok.
    destruct (size <? pos); [reflexivity|]. now destruct w.
  - assert (H : one_line (c :: l) = true).
    { rewrite <- E. apply one_line_take_line. intros H. now rewrite H in E. }
    unfold bind, emit, ret, trace. cbn [fst app stdout forallb].
    now rewrite H.
Qed.

Lemma trace_bind {A B : Type} (m : M A) (k : A -> M B) :
  trace (bind m k)
  = trace m ++ match outcome m with
               | Ok a => trace (k a)
               | Raise _ => []
               end.
Proof.
  destruct m as [tr [a|e]]; simpl.
  - now destruct (k a).
  - now rewrite app_nil_r.
Qed.

Lemma follow_one_line (ps : list poll) (pos : nat) :
  forallb one_line (stdout (trace (follow interval ps pos))) = true.
Proof.
  revert pos. induction ps as [|p ps IH]; intros pos; [reflexivity|].
  cbn [follow]. rewrite trace_bind, stdout_app, forallb_app, loop_body_one_line.
  destruct (outcome (loop_body interval p pos)); [apply IH|reflexivity].
Qed.

Lemma initial_phase_one_line (n : Z) (env : environment) :
  forallb one_line (stdout (trace (initial_phase n env))) = true.
Proof.
  unfold initial_phase. destruct (at_open env) as [size|e]; [|reflexivity].
  rewrite ask_ok. destruct (n >? 0)%Z; [|reflexivity].
  destruct (at_readlines env) as [f|e]; [|reflexivity].
  rewrite ask_ok, for_each_emit. simpl. rewrite app_nil_r, stdout_map.
  unfold slice_from. apply forallb_skipn, readlines_one_line.
Qed.

Lemma handler_stdout (e : exn) : stdout (trace (handler e)) = [].
Proof. destruct e; reflexivity. Qed.

Lemma trace_try_except {A : Type} (m : M A) (h : exn -> M A) :
  trace (try_except m h)
  = trace m ++ match outcome m with
               | Ok _ => []
               | Raise e => trace (h e)
               end.
Proof.
  destruct m as [tr [a|e]]; simpl.
  - now rewrite app_nil_r.
  - now destruct (h e).
Qed.

End Emissions.

(** Whatever the outside world does (appends, truncations, failing calls,
    interrupts), every piece a session writes to standard output is one line
    or the beginning of one: it is not empty and holds no newline before its
    last character. *)
Theorem tail_file_prints_line_by_line
    (name : string) (interval : Q) (n : Z) (env : environment) :
  forallb one_line (stdout (trace (tail_file name interval n env))) = true.
Proof.
  unfold tail_file. rewrite trace_try_except, stdout_app, forallb_app.
  apply andb_true_iff. split.
  - unfold tail_file_body. rewrite trace_bind, stdout_app, forallb_app.
    apply andb_true_iff. split; [now destruct (path_exists env)|].
    destruct (outcome _); [|reflexivity].
    rewrite trace_bind, stdout_app, forallb_app, initial_phase_one_line.
    destruct (outcome (initial_phase n env)); [|reflexivity].
    rewrite trace_bind, stdout_app, forallb_app. cbn [emit trace fst stdout forallb outcome snd andb].
    apply follow_one_line.
  - destruct (outcome _); [reflexivity|]. now rewrite handler_stdout.
Qed.

(** An append that lands after [readline] found nothing and before the seek
    to the end is never printed. Everything is plain text. The cursor is at
    the end of [f]; [readline] sees [f]; by the time of the seek the file
    holds [f ++ c]. The iteration sleeps and leaves the cursor behind [c], and
    whatever is appended later, the output consists of characters of the later
    appends only. *)
Theorem append_between_read_and_seek_never_printed
    (interval : Q) (f c : text) (cs : list text) :
  plain f = true ->
  plain c = true ->
  forallb plain cs = true ->
  exists tr pos',
    follow interval
      ({| at_read := Ok f; at_size := Ok (length (f ++ c)); at_sleep := Ok tt |}
       :: map quiet (grow (f ++ c) cs))
      (length f)
    = (Sleep interval :: tr, Ok pos') /\
    length (f ++ c) <= pos' /\
    concat (stdout tr) = firstn (pos' - length (f ++ c)) (concat cs) /\
    stderr tr = [].
Proof.
  intros _ _ _.
  destruct (follow_grow interval (f ++ c) cs (length (f ++ c)) (le_n _))
    as (tr & pos' & Hrun & Hb & Hout & Herr).
  exists tr, pos'.
  rewrite (follow_step interval _ _ (length f) (length (f ++ c)) [Sleep interval]).
  - rewrite Hrun. cbn [trace outcome fst snd List.app].
    repeat split; try tauto. now rewrite Hout, segment_appended.
  - apply loop_body_wait; [lia|]. rewrite length_app. lia.
Qed.

(** The line [b] lands in between; the line [c] is appended later. *)
Lemma append_between_read_and_seek_never_printed_witness :
  exists tr pos',
    follow 1
      ({| at_read := Ok (ln "a"); at_size := Ok (length (ln "a" ++ ln "b"));
          at_sleep := Ok tt |}
       :: map quiet (grow (ln "a" ++ ln "b") [ln "c"]))
      (length (ln "a"))
    = (Sleep 1 :: tr, Ok pos') /\
    concat (stdout tr) = firstn (pos' - 4) (ln "c").
Proof.
  destruct (append_between_read_and_seek_never_printed 1 (ln "a") (ln "b") [ln "c"])
    as (tr & pos' & Hrun & _ & Hout & _); [reflexivity|reflexivity|reflexivity|].
  exists tr, pos'. split; [exact Hrun|exact Hout].
Defined.

(** A file rewritten in place is taken for the old one when it is not
    shorter than the cursor. Everything is plain text. The loop has read the
    file, which held [old], to its end, so that the handle has nothing
    buffered; the file is then rewritten in place and holds [g], not shorter
    than [old]. Given more polls than [g] has characters past the cursor, the
    loop prints no marker and prints exactly the lines of [g] from the old
    cursor on, one per iteration; the characters of [g] before the cursor are
    never printed. *)
Theorem file_not_shorter_than_cursor_is_read_on
    (interval : Q) (old g : text) (n : nat) :
  plain old = true ->
  plain g = true ->
  length old <= length g ->
  length g - length old < n ->
  exists tr,
    follow interval (repeat (quiet g) n) (length old) = (tr, Ok (length g)) /\
    stdout tr = readlines (skipn (length old) g) /\
    concat (stdout tr) = skipn (length old) g /\
    stderr tr = [].
Proof.
  intros _ _ Hpos Hn.
  destruct (follow_drain interval g n (length old) Hpos Hn)
    as (tr & Hrun & Hout & Herr).
  exists tr. repeat split; try assumption.
  rewrite Hout. apply concat_readlines.
Qed.

(** The file held the line [old]; it is rewritten to two lines. *)
Lemma file_not_shorter_than_cursor_is_read_on_witness :
  exists tr,
    follow 1 (repeat (quiet (ln "new" ++ ln "xy")) 4) (length (ln "old"))
      = (tr, Ok 7) /\
    stdout tr = [ln "xy"].
Proof.
  destruct (file_not_shorter_than_cursor_is_read_on 1 (ln "old") (ln "new" ++ ln "xy") 4)
    as (tr & Hrun & Hout & _);
    [reflexivity|reflexivity|simpl; lia|simpl; lia|].
  exists tr. split; [exact Hrun|exact Hout].
Defined.



(** ** The viewer: searching *)

Import Gui.

Section Search.

Lemma starts_with_iff (sub s : text) :
  starts_with sub s = true <->
  length sub <= length s /\ firstn (length sub) s = sub.
Proof.
  revert s. induction sub as [|a sub IH]; intros s; simpl.
  - split; [intros _; split; [lia|reflexivity]|reflexivity].
  - destruct s as [|b s]; simpl.
    + split; [discriminate|intros [H _]; lia].
    + rewrite andb_true_iff, IH, Ascii.eqb_eq. split.
      * intros [-> [Hl Hf]]. split; [lia|now rewrite Hf].
      * intros [Hl Hf]. injection Hf as -> Hf. repeat split; [lia|exact Hf].
Qed.

(** [starts_with] at an offset is [occurs_at]. *)
Lemma starts_with_occurs (term s : text) (i : nat) :
  i <= length s ->
  (starts_with term (skipn i s) = true <-> occurs_at term s i).
Proof.
  intros Hi. rewrite starts_with_iff, length_skipn. unfold occurs_at.
  split; intros [H1 H2]; (split; [lia|exact H2]).
Qed.

Lemma find_from_some (sub s : text) (i j : nat) :
  find_from sub s i = Some j ->
  exists d, j = i + d /\ d <= length s /\
            starts_with sub (skipn d s) = true /\
            forall k, k < d -> starts_with sub (skipn k s) = false.
Proof.
  revert i. induction s as [|c s IH]; intros i.
  - simpl. destruct (starts_with sub []) eqn:E; [|discriminate].
    intros [= <-]. exists 0. repeat split; [lia|lia|exact E|lia].
  - cbn [find_from]. destruct (starts_with sub (c :: s)) eqn:E.
    + intros [= <-]. exists 0. repeat split; [lia|simpl; lia|exact E|lia].
    + intros H. destruct (IH _ H) as (d & -> & Hd & Hat & Hbefore).
      exists (S d). repeat split; [lia|simpl; lia|exact Hat|].
      intros [|k] Hk; [exact E|]. apply Hbefore. lia.
Qed.

Lemma find_from_none (sub s : text) (i k : nat) :
  find_from sub s i = None -> starts_with sub (skipn k s) = false.
Proof.
  revert i k. induction s as [|c s IH]; intros i k.
  - simpl. destruct (starts_with sub []) eqn:E; [discriminate|].
    intros _. now rewrite skipn_nil.
  - cbn [find_from]. destruct (starts_with sub (c :: s)) eqn:E; [discriminate|].
    intros H. destruct k as [|k]; [exact E|]. simpl. now apply (IH (S i)).
Qed.

(** What [find] returns: the first offset not below [start] at which the
    term stands. *)
Lemma find_some (s sub : text) (start j : nat) :
  find s sub start = Some j ->
  start <= j <= length s /\
  starts_with sub (skipn j s) = true /\
  forall k, start <= k < j -> starts_with sub (skipn k s) = false.
Proof.
  unfold find. destruct (length s <? start) eqn:E; [discriminate|].
  apply Nat.ltb_ge in E. intros H.
  destruct (find_from_some _ _ _ _ H) as (d & -> & Hd & Hat & Hbefore).
  rewrite length_skipn in Hd. rewrite skipn_skipn in Hat.
  repeat split; [lia|lia|now rewrite Nat.add_comm|].
  intros k Hk. specialize (Hbefore (k - start) ltac:(lia)).
  rewrite skipn_skipn in Hbefore.
  now replace (k - start + start) with k in Hbefore by lia.
Qed.

Lemma find_none (s sub : text) (start k : nat) :
  find s sub start = None -> start <= k <= length s ->
  starts_with sub (skipn k s) = false.
Proof.
  unfold find. destruct (length s <? start) eqn:E.
  - apply Nat.ltb_lt in E. lia.
  - intros H Hk. pose proof (find_from_none _ _ _ (k - start) H) as Hn.
    rewrite skipn_skipn in Hn.
    now replace (k - start + start) with k in Hn by lia.
Qed.

Lemma filter_none {A : Type} (p : A -> bool) (l : list A) :
  (forall x, In x l -> p x = false) -> filter p l = [].
Proof.
  induction l as [|a l IH]; intros H; [reflexivity|].
  simpl. rewrite (H a) by now left. apply IH. intros x Hx. apply H. now right.
Qed.

(** The loop of [find_next] collects every offset from [start] on at which
    the term stands, as soon as it may run for more iterations than there
    are offsets left. *)
Lemma find_all_filter (fuel : nat) (s term : text) (start : nat) :
  length s < fuel + start ->
  find_all fuel s term start
  = filter (fun i => starts_with term (skipn i s))
      (seq start (S (length s) - start)).
Proof.
  revert start. induction fuel as [|fuel IH]; intros start Hfuel.
  - replace (S (length s) - start) with 0 by lia. reflexivity.
  - cbn [find_all]. destruct (find s term start) as [pos|] eqn:E.
    + destruct (find_some _ _ _ _ E) as ([Hlo Hhi] & Hat & Hbefore).
      rewrite IH by lia.
      replace (S (length s) - start)
        with ((pos - start) + S (S (length s) - (pos + 1))) by lia.
      rewrite seq_app, filter_app. cbn [seq filter].
      replace (start + (pos - start)) with pos by lia. rewrite Hat.
      rewrite (filter_none _ (seq start (pos - start))).
      * cbn [List.app]. now rewrite !Nat.add_1_r.
      * intros k Hk. apply in_seq in Hk. apply Hbefore. lia.
    + symmetry. apply filter_none. intros k Hk. apply in_seq in Hk.
      apply (find_none _ _ _ _ E). lia.
Qed.

Lemma find_all_occurrences (fuel : nat) (s term : text) :
  length s < fuel -> find_all fuel s term 0 = occurrences term s.
Proof.
  intros H. rewrite find_all_filter by lia. unfold occurrences.
  now rewrite Nat.sub_0_r.
Qed.

Lemma occurrences_in (term s : text) (i : nat) :
  In i (occurrences term s) <-> occurs_at term s i.
Proof.
  unfold occurrences. rewrite filter_In, in_seq. split.
  - intros [Hi H]. apply starts_with_occurs; [lia|exact H].
  - intros H. assert (Hi : i <= length s) by (destruct H; lia).
    split; [lia|]. now apply starts_with_occurs.
Qed.

Lemma filter_seq_sorted (p : nat -> bool) (start len : nat) :
  forall i j, i < j < length (filter p (seq start len)) ->
  nth i (filter p (seq start len)) 0 < nth j (filter p (seq start len)) 0.
Proof.
  revert start. induction len as [|len IH]; intros start i j Hij.
  - simpl in Hij. lia.
  - cbn [seq filter] in *. destruct (p start).
    + cbn [length] in Hij. destruct j as [|j]; [lia|]. destruct i as [|i].
      * cbn [nth].
        assert (Hin : In (nth j (filter p (seq (S start) len)) 0)
                        (filter p (seq (S start) len)))
          by (apply nth_In; lia).
        apply filter_In in Hin as [Hin _]. apply in_seq in Hin. lia.
      * cbn [nth]. apply IH. lia.
    + apply IH. exact Hij.
Qed.

(** The text and term [find_next] searches with. *)
Lemma lower_occurs (term s : text) (i : nat) :
  occurs_at term s i -> occurs_at (lower term) (lower s) i.
Proof.
  unfold occurs_at, lower. rewrite !length_map. intros [Hb Hf].
  split; [exact Hb|]. now rewrite skipn_map, firstn_map, Hf.
Qed.

End Search.

Section FindNext.

Lemma find_next_unfold (a : LogTailApp) :
  search_input a <> [] ->
  find_next a =
  let a1 := set_search_matches (occurrences (searched_term a) (searched_text a))
              (set_search_text (search_input a) a) in
  match occurrences (searched_term a) (searched_text a) with
  | [] => set_status_label (NoMatchesFound (searched_term a)) a1
  | _ :: _ =>
      let n := length (occurrences (searched_term a) (searched_text a)) in
      let i := if n <=? current_match_index a then 0 else current_match_index a in
      set_current_match_index ((i + 1) mod n)
        (set_status_label (MatchOf (i + 1) n)
           (set_cursor (nth i (occurrences (searched_term a) (searched_text a)) 0, 0)
              (if n <=? current_match_index a
               then set_current_match_index 0 a1 else a1)))
  end.
Proof.
  intros Hs. unfold find_next, searched_term, searched_text.
  destruct (search_input a) as [|c t] eqn:Es; [congruence|].
  cbn [case_sensitive log_display set_search_text].
  destruct (case_sensitive a) eqn:Ec.
  - rewrite find_all_occurrences by lia.
    destruct (occurrences (c :: t) (log_display a)) as [|m ms] eqn:Eo;
      [reflexivity|].
    cbn [current_match_index set_search_matches set_search_text].
    destruct (length (m :: ms) <=? current_match_index a); reflexivity.
  - rewrite find_all_occurrences by lia.
    destruct (occurrences (lower (c :: t)) (lower (log_display a)))
      as [|m ms] eqn:Eo; [reflexivity|].
    cbn [current_match_index set_search_matches set_search_text].
    destruct (length (m :: ms) <=? current_match_index a); reflexivity.
Qed.

End FindNext.

Section FindNextFacts.

Lemma find_next_matches (a : LogTailApp) :
  search_input a <> [] ->
  search_matches (find_next a) = occurrences (searched_term a) (searched_text a).
Proof.
  intros Hs. rewrite (find_next_unfold a Hs). cbv zeta.
  destruct (occurrences (searched_term a) (searched_text a)) as [|m ms];
    [reflexivity|].
  destruct (length (m :: ms) <=? current_match_index a); reflexivity.
Qed.

(** [find_next] leaves the search box, the log and the case setting alone. *)
Lemma find_next_keeps (a : LogTailApp) :
  search_input (find_next a) = search_input a /\
  log_display (find_next a) = log_display a /\
  case_sensitive (find_next a) = case_sensitive a /\
  all_log_text (find_next a) = all_log_text a.
Proof.
  destruct (search_input a) as [|c t] eqn:Es.
  - unfold find_next. rewrite Es. auto.
  - rewrite (find_next_unfold a) by (rewrite Es; discriminate). cbv zeta.
    destruct (occurrences (searched_term a) (searched_text a)) as [|m ms];
      [auto|].
    destruct (length (m :: ms) <=? current_match_index a); auto.
Qed.

Lemma find_next_same_search (a : LogTailApp) :
  searched_term (find_next a) = searched_term a /\
  searched_text (find_next a) = searched_text a.
Proof.
  destruct (find_next_keeps a) as (H1 & H2 & H3 & _).
  unfold searched_term, searched_text. now rewrite H1, H2, H3.
Qed.

(** The match a press of Find Next shows, and the index it leaves. *)
Lemma find_next_step (a : LogTailApp) (m : nat) (ms : list nat) :
  search_input a <> [] ->
  occurrences (searched_term a) (searched_text a) = m :: ms ->
  cursor (find_next a)
    = (nth (if length (m :: ms) <=? current_match_index a
            then 0 else current_match_index a) (m :: ms) 0, 0) /\
  status_label (find_next a)
    = MatchOf ((if length (m :: ms) <=? current_match_index a
                then 0 else current_match_index a) + 1) (length (m :: ms)) /\
  current_match_index (find_next a)
    = ((if length (m :: ms) <=? current_match_index a
        then 0 else current_match_index a) + 1) mod length (m :: ms).
Proof.
  intros Hs Ho. rewrite (find_next_unfold a Hs). cbv zeta. rewrite Ho.
  repeat split.
Qed.

End FindNextFacts.

(** Find Next collects every place where the term stands in the log, and
    nothing else. The list of matches is the list of all offsets at which the
    searched term occurs in the searched text (both lower-cased unless the
    search is case sensitive), overlapping occurrences included, in strictly
    increasing order. The loop that collects them ends by itself: any bound
    on its iterations above the length of the text gives the same list. *)
Theorem find_next_collects_every_occurrence (a : LogTailApp) (fuel : nat) :
  search_input a <> [] ->
  length (searched_text a) < fuel ->
  search_matches (find_next a)
    = find_all fuel (searched_text a) (searched_term a) 0 /\
  (forall i, In i (search_matches (find_next a))
             <-> occurs_at (searched_term a) (searched_text a) i) /\
  (forall i j, i < j < length (search_matches (find_next a)) ->
               nth i (search_matches (find_next a)) 0
               < nth j (search_matches (find_next a)) 0).
Proof.
  intros Hs Hfuel. rewrite (find_next_matches a Hs). split; [|split].
  - symmetry. now apply find_all_occurrences.
  - intros i. apply occurrences_in.
  - apply filter_seq_sorted.
Qed.

(** The term [aa] in the log [aaa]: two overlapping occurrences. *)
Lemma find_next_collects_every_occurrence_witness :
  search_matches
    (find_next (set_search_input (text_of "aa") (set_log_display (text_of "aaa") init)))
  = [0; 1].
Proof.
  destruct (find_next_collects_every_occurrence
              (set_search_input (text_of "aa") (set_log_display (text_of "aaa") init)) 4)
    as (H & _); [discriminate|simpl; lia|].
  rewrite H. reflexivity.
Defined.

(** On ASCII text a search is never narrower for ignoring case: every
    offset at which the term stands in the log as typed is among the matches
    of the case-insensitive search. *)
Theorem case_insensitive_search_finds_exact_matches (a : LogTailApp) (i : nat) :
  forallb is_ascii (search_input a) = true ->
  forallb is_ascii (log_display a) = true ->
  search_input a <> [] ->
  case_sensitive a = false ->
  occurs_at (search_input a) (log_display a) i ->
  In i (search_matches (find_next a)).
Proof.
  intros _ _ Hs Hc Ho. rewrite (find_next_matches a Hs). apply occurrences_in.
  unfold searched_term, searched_text. rewrite Hc. now apply lower_occurs.
Qed.

(** The term [Bo] stands at offset 2 of [xyBob]. *)
Lemma case_insensitive_search_finds_exact_matches_witness :
  In 2 (search_matches
          (find_next (set_search_input (text_of "Bo")
                        (set_log_display (text_of "xyBob") init)))).
Proof.
  apply case_insensitive_search_finds_exact_matches;
    [reflexivity|reflexivity|discriminate|reflexivity
    |split; [simpl; lia|reflexivity]].
Defined.

(** With the term present in the log, a press of Find Next puts the cursor
    column on a match: the one at the current index, or the first when the
    index is past the list (the log has changed since). The status reads
    [Match i of n] with [1 <= i <= n], the index left behind is below [n], and
    the log is untouched. *)
Theorem find_next_shows_a_match (a : LogTailApp) :
  search_input a <> [] ->
  occurrences (searched_term a) (searched_text a) <> [] ->
  exists i n,
    n = length (occurrences (searched_term a) (searched_text a)) /\
    i < n /\
    (current_match_index a < n -> i = current_match_index a) /\
    (n <= current_match_index a -> i = 0) /\
    cursor (find_next a)
      = (nth i (occurrences (searched_term a) (searched_text a)) 0, 0) /\
    occurs_at (searched_term a) (searched_text a) (fst (cursor (find_next a))) /\
    status_label (find_next a) = MatchOf (i + 1) n /\
    current_match_index (find_next a) = (i + 1) mod n /\
    current_match_index (find_next a) < n /\
    log_display (find_next a) = log_display a.
Proof.
  intros Hs Ho.
  destruct (occurrences (searched_term a) (searched_text a)) as [|m ms] eqn:Eo;
    [congruence|].
  destruct (find_next_step a m ms Hs Eo) as (Hcur & Hst & Hidx).
  exists (if length (m :: ms) <=? current_match_index a
          then 0 else current_match_index a), (length (m :: ms)).
  assert (Hi : (if length (m :: ms) <=? current_match_index a
                then 0 else current_match_index a) < length (m :: ms)).
  { destruct (Nat.leb_spec (length (m :: ms)) (current_match_index a));
      simpl in *; lia. }
  repeat split; try assumption.
  - intros H. destruct (Nat.leb_spec (length (m :: ms)) (current_match_index a));
      [lia|reflexivity].
  - intros H. destruct (Nat.leb_spec (length (m :: ms)) (current_match_index a));
      [reflexivity|lia].
  - rewrite Hcur. cbn [fst]. apply occurrences_in. rewrite Eo.
    now apply nth_In.
  - rewrite Hcur. cbn [fst]. apply occurrences_in. rewrite Eo.
    now apply nth_In.
  - rewrite Hidx. apply Nat.mod_upper_bound. discriminate.
  - apply find_next_keeps.
Qed.

(** Three matches of [b], the index at the second. *)
Lemma find_next_shows_a_match_witness :
  exists i n,
    cursor (find_next (set_current_match_index 1
                         (set_search_input (text_of "b")
                            (set_log_display (text_of "abcbab") init))))
      = (nth i [1; 3; 5] 0, 0) /\
    i = 1 /\ n = 3.
Proof.
  destruct (find_next_shows_a_match
              (set_current_match_index 1
                 (set_search_input (text_of "b")
                    (set_log_display (text_of "abcbab") init))))
    as (i & n & Hn & _ & Hi & _ & Hcur & _); [discriminate|discriminate|].
  exists i, n. repeat split; [exact Hcur|now apply Hi; rewrite Hn; simpl; lia|exact Hn].
Defined.

(** Pressing Find Next again and again on an unchanged log walks through
    the matches in order and starts over after the last: the press number
    [k + 1] shows the match at index [(i + k) mod n], where [i] is the index
    the first press showed. So [n] presses show every match once. *)
Theorem find_next_cycles_through_matches (a : LogTailApp) (k : nat) :
  search_input a <> [] ->
  occurrences (searched_term a) (searched_text a) <> [] ->
  cursor (Nat.iter (S k) find_next a)
  = (nth (((if length (occurrences (searched_term a) (searched_text a))
               <=? current_match_index a
            then 0 else current_match_index a) + k)
          mod length (occurrences (searched_term a) (searched_text a)))
       (occurrences (searched_term a) (searched_text a)) 0, 0).
Proof.
  revert a. induction k as [|k IH]; intros a Hs Ho.
  - destruct (occurrences (searched_term a) (searched_text a)) as [|m ms] eqn:Eo;
      [congruence|].
    destruct (find_next_step a m ms Hs Eo) as (Hcur & _).
    cbn [Nat.iter nat_rect]. rewrite Hcur, Nat.add_0_r, Nat.mod_small; [reflexivity|].
    destruct (Nat.leb_spec (length (m :: ms)) (current_match_index a));
      simpl in *; lia.
  - rewrite Nat.iter_succ_r.
    destruct (find_next_keeps a) as (Hk1 & _).
    destruct (find_next_same_search a) as (Ht1 & Ht2).
    rewrite IH by (rewrite ?Ht1, ?Ht2, ?Hk1; assumption).
    rewrite Ht1, Ht2.
    destruct (occurrences (searched_term a) (searched_text a)) as [|m ms] eqn:Eo;
      [congruence|].
    destruct (find_next_step a m ms Hs Eo) as (_ & _ & Hidx).
    rewrite Hidx. f_equal. f_equal.
    set (n := length (m :: ms)) in *.
    set (i := if n <=? current_match_index a then 0 else current_match_index a).
    assert (Hn : n <> 0) by (subst n; discriminate).
    destruct (Nat.leb_spec n ((i + 1) mod n)) as [Hge|Hlt].
    + pose proof (Nat.mod_upper_bound (i + 1) n Hn). lia.
    + rewrite Nat.Div0.add_mod_idemp_l. f_equal. lia.
Qed.

(** Three matches of [b]: the fourth press is back on the first. *)
Lemma find_next_cycles_through_matches_witness :
  cursor (Nat.iter 4 find_next
            (set_search_input (text_of "b")
               (set_log_display (text_of "abcbab") init)))
  = (1, 0).
Proof.
  rewrite (find_next_cycles_through_matches
             (set_search_input (text_of "b")
                (set_log_display (text_of "abcbab") init)) 3);
    [reflexivity|discriminate|discriminate].
Defined.

(** ** The viewer: filtering *)

Section SplitJoin.

Lemma split_nonempty (s : text) : split s <> [].
Proof.
  destruct s as [|c s]; simpl; [discriminate|].
  destruct (is_newline c); [discriminate|].
  destruct (split s); discriminate.
Qed.

Lemma join_cons (l : text) (ls : list text) :
  ls <> [] -> join (l :: ls) = l ++ newline :: join ls.
Proof. destruct ls; [congruence|reflexivity]. Qed.

Lemma is_newline_eq (c : ascii) : is_newline c = true -> c = newline.
Proof. apply Ascii.eqb_eq. Qed.

(** Splitting at newlines and joining with newlines gives the text back. *)
Lemma join_split (s : text) : join (split s) = s.
Proof.
  induction s as [|c s IH]; [reflexivity|].
  cbn [split]. destruct (is_newline c) eqn:Hc.
  - rewrite join_cons by apply split_nonempty.
    rewrite IH. apply is_newline_eq in Hc. now subst c.
  - pose proof (split_nonempty s) as Hne.
    destruct (split s) as [|l ls]; [congruence|].
    destruct ls as [|l2 ls]; [simpl in *; now rewrite IH|].
    rewrite join_cons by discriminate. rewrite join_cons in IH by discriminate.
    rewrite <- IH. reflexivity.
Qed.

Lemma split_plain (l : text) : existsb is_newline l = false -> split l = [l].
Proof.
  induction l as [|c l IH]; [reflexivity|].
  simpl. destruct (is_newline c); [discriminate|].
  intros H. now rewrite IH.
Qed.

Lemma split_app_newline (l t : text) :
  existsb is_newline l = false -> split (l ++ newline :: t) = l :: split t.
Proof.
  induction l as [|c l IH]; [reflexivity|].
  simpl. destruct (is_newline c); [discriminate|].
  intros H. now rewrite IH.
Qed.

Lemma split_join (ls : list text) :
  ls <> [] ->
  Forall (fun l => existsb is_newline l = false) ls ->
  split (join ls) = ls.
Proof.
  induction ls as [|l ls IH]; intros Hne Hall; [congruence|].
  apply Forall_cons_iff in Hall as [Hl Hls].
  destruct ls as [|l2 ls]; [now apply split_plain|].
  rewrite join_cons by discriminate.
  rewrite split_app_newline by exact Hl.
  now rewrite IH by (discriminate || exact Hls).
Qed.

Lemma split_no_newline (s : text) :
  Forall (fun l => existsb is_newline l = false) (split s).
Proof.
  induction s as [|c s IH]; [repeat constructor|].
  cbn [split]. destruct (is_newline c) eqn:Hc.
  - constructor; [reflexivity|exact IH].
  - destruct (split s) as [|l ls]; [repeat constructor; simpl; now rewrite Hc|].
    apply Forall_cons_iff in IH as [Hl Hls].
    constructor; [simpl; now rewrite Hc|exact Hls].
Qed.

Lemma Forall_filter_keep {A : Type} (P : A -> Prop) (p : A -> bool) (l : list A) :
  Forall P l -> Forall P (filter p l).
Proof.
  induction 1 as [|a l Ha Hl IH]; simpl; [constructor|].
  destruct (p a); [now constructor|exact IH].
Qed.

Lemma filter_idem {A : Type} (p : A -> bool) (l : list A) :
  filter p (filter p l) = filter p l.
Proof.
  induction l as [|a l IH]; [reflexivity|].
  simpl. destruct (p a) eqn:E; [simpl; now rewrite E, IH|exact IH].
Qed.

End SplitJoin.

Section Filter.

Lemma show_all_matches_unfold (a : LogTailApp) :
  search_input a <> [] ->
  show_all_matches a =
  match kept_lines a with
  | [] => set_status_label NoMatchingLines (set_all_log_text (log_display a) a)
  | _ :: _ =>
      set_status_label (ShowingMatching (length (kept_lines a)))
        (set_log_display (join (kept_lines a))
           (set_all_log_text (log_display a) a))
  end.
Proof.
  intros Hs. unfold show_all_matches, kept_lines.
  destruct (search_input a) as [|c t] eqn:Es; [congruence|].
  cbn [all_log_text case_sensitive set_all_log_text]. reflexivity.
Qed.

(** An empty log has no line that holds a non-empty term. *)
Lemma kept_lines_of_empty_log (a : LogTailApp) :
  search_input a <> [] -> log_display a = [] -> kept_lines a = [].
Proof.
  intros Hs Hd. unfold kept_lines. rewrite Hd.
  destruct (search_input a) as [|c t]; [congruence|].
  destruct (case_sensitive a); reflexivity.
Qed.

Lemma kept_lines_no_newline (a : LogTailApp) :
  Forall (fun l => existsb is_newline l = false) (kept_lines a).
Proof. apply Forall_filter_keep, split_no_newline. Qed.

(** What survives [show_all_matches] of what [kept_lines] reads. *)
Lemma show_all_matches_keeps (a : LogTailApp) :
  search_input (show_all_matches a) = search_input a /\
  case_sensitive (show_all_matches a) = case_sensitive a /\
  file_path (show_all_matches a) = file_path a.
Proof.
  destruct (search_input a) as [|c t] eqn:Es.
  - unfold show_all_matches. rewrite Es. auto.
  - rewrite show_all_matches_unfold by (rewrite Es; discriminate).
    destruct (kept_lines a); auto.
Qed.

Lemma clear_search_display (a : LogTailApp) :
  log_display (clear_search a)
  = match all_log_text a with
    | [] => log_display a
    | _ :: _ => all_log_text a
    end.
Proof. unfold clear_search. cbn. now destruct (all_log_text a). Qed.

Lemma append_text_keeps (t : text) (a : LogTailApp) :
  all_log_text (append_text t a) = all_log_text a /\
  log_display (append_text t a) = log_display a ++ t.
Proof. split; reflexivity. Qed.

Lemma deliver_all_log_text (acts : list action) (a : LogTailApp) :
  all_log_text (deliver acts a) = all_log_text a.
Proof.
  revert a. induction acts as [|[[line|e]|] acts IH]; intros a; simpl;
    [reflexivity|now rewrite IH..].
Qed.

Lemma deliver_display (acts : list action) (a : LogTailApp) :
  log_display (deliver acts a) = log_display a ++ concat (appended acts).
Proof.
  revert a. induction acts as [|[[line|e]|] acts IH]; intros a;
    cbn [deliver run_scheduled call appended concat].
  - now rewrite app_nil_r.
  - rewrite IH. cbn [append_text log_display set_log_display set_cursor].
    now rewrite <- app_assoc.
  - apply IH.
  - apply IH.
Qed.

End Filter.

(** Show Matches leaves in the log exactly the lines that hold the search
    term (as typed when the search is case sensitive, in any case otherwise),
    in their order, and reports their number; the log as it was is put aside
    in [all_log_text]. When no line holds the term the log stays as it is. *)
Theorem show_all_matches_keeps_matching_lines (a : LogTailApp) :
  search_input a <> [] ->
  all_log_text (show_all_matches a) = log_display a /\
  (kept_lines a <> [] ->
   split (log_display (show_all_matches a))
     = filter (line_matches (case_sensitive a) (search_input a))
         (split (log_display a)) /\
   status_label (show_all_matches a) = ShowingMatching (length (kept_lines a))) /\
  (kept_lines a = [] ->
   log_display (show_all_matches a) = log_display a /\
   status_label (show_all_matches a) = NoMatchingLines).
Proof.
  intros Hs. rewrite (show_all_matches_unfold a Hs).
  destruct (kept_lines a) as [|l ls] eqn:Ek.
  - repeat split; congruence.
  - repeat split; try congruence.
    cbn [log_display set_status_label set_log_display].
    fold (kept_lines a). rewrite <- Ek.
    apply split_join; [congruence|apply kept_lines_no_newline].
Qed.

(** Of three lines, two hold [b] in some case. *)
Lemma show_all_matches_keeps_matching_lines_witness :
  all_log_text
    (show_all_matches
       (set_search_input (text_of "b")
          (set_log_display (ln "abc" ++ ln "xyz" ++ text_of "Bob") init)))
  = ln "abc" ++ ln "xyz" ++ text_of "Bob".
Proof.
  destruct (show_all_matches_keeps_matching_lines
              (set_search_input (text_of "b")
                 (set_log_display (ln "abc" ++ ln "xyz" ++ text_of "Bob") init)))
    as (H & _); [discriminate|exact H].
Defined.

(** Show Matches followed by Clear gives the log back as it was, and empties
    the search box and the text put aside. *)
Theorem clear_search_restores_filtered_log (a : LogTailApp) :
  search_input a <> [] ->
  log_display (clear_search (show_all_matches a)) = log_display a /\
  all_log_text (clear_search (show_all_matches a)) = [] /\
  search_input (clear_search (show_all_matches a)) = [].
Proof.
  intros Hs. rewrite clear_search_display.
  rewrite (show_all_matches_unfold a Hs).
  destruct (kept_lines a) as [|l ls] eqn:Ek.
  - cbn. destruct (log_display a); repeat split; reflexivity.
  - cbn. destruct (log_display a) as [|c t] eqn:Ed.
    + rewrite (kept_lines_of_empty_log a Hs Ed) in Ek. discriminate.
    + repeat split; reflexivity.
Qed.

Lemma clear_search_restores_filtered_log_witness :
  log_display
    (clear_search
       (show_all_matches
          (set_search_input (text_of "b")
             (set_log_display (ln "abc" ++ ln "xyz" ++ text_of "Bob") init))))
  = ln "abc" ++ ln "xyz" ++ text_of "Bob".
Proof.
  destruct (clear_search_restores_filtered_log
              (set_search_input (text_of "b")
                 (set_log_display (ln "abc" ++ ln "xyz" ++ text_of "Bob") init)))
    as (H & _); [discriminate|exact H].
Defined.

(** Show Matches pressed twice loses the log: the second press puts the
    filtered text aside in place of the original, so Clear brings back the
    filtered text only. Unless every line held the term, what is restored
    differs from the log as it was. *)
Theorem show_matches_twice_loses_the_log (a : LogTailApp) :
  search_input a <> [] ->
  kept_lines a <> [] ->
  log_display (clear_search (show_all_matches (show_all_matches a)))
    = join (kept_lines a) /\
  (kept_lines a <> split (log_display a) ->
   log_display (clear_search (show_all_matches (show_all_matches a)))
     <> log_display a).
Proof.
  intros Hs Hk.
  assert (Hsplit : split (join (kept_lines a)) = kept_lines a)
    by (apply split_join; [exact Hk|apply kept_lines_no_newline]).
  set (a1 := show_all_matches a).
  assert (Ha1 : a1 = set_status_label (ShowingMatching (length (kept_lines a)))
                       (set_log_display (join (kept_lines a))
                          (set_all_log_text (log_display a) a))).
  { unfold a1. rewrite (show_all_matches_unfold a Hs).
    destruct (kept_lines a); [congruence|reflexivity]. }
  assert (Hs1 : search_input a1 <> []) by (rewrite Ha1; exact Hs).
  assert (Hk1 : kept_lines a1 = kept_lines a).
  { rewrite Ha1. unfold kept_lines at 1.
    cbn [log_display case_sensitive search_input set_status_label set_log_display
         set_all_log_text].
    rewrite Hsplit. unfold kept_lines. apply filter_idem. }
  assert (Hres : log_display (clear_search (show_all_matches a1))
                 = join (kept_lines a)).
  { rewrite clear_search_display, (show_all_matches_unfold a1 Hs1), Hk1.
    destruct (kept_lines a) as [|l ls] eqn:Ek; [congruence|].
    cbn [all_log_text log_display set_status_label set_log_display
         set_all_log_text].
    rewrite Ha1.
    cbn [log_display set_status_label set_log_display set_all_log_text].
    now destruct (join (l :: ls)). }
  split; [exact Hres|].
  intros Hdiff Heq. apply Hdiff. rewrite <- Hsplit, <- Hres, Heq. reflexivity.
Qed.

(** Of three lines two are kept; after two presses and Clear the line [xyz]
    is gone. *)
Lemma show_matches_twice_loses_the_log_witness :
  log_display
    (clear_search
       (show_all_matches
          (show_all_matches
             (set_search_input (text_of "b")
                (set_log_display (ln "abc" ++ ln "xyz" ++ text_of "Bob") init)))))
  = ln "abc" ++ text_of "Bob".
Proof.
  destruct (show_matches_twice_loses_the_log
              (set_search_input (text_of "b")
                 (set_log_display (ln "abc" ++ ln "xyz" ++ text_of "Bob") init)))
    as (H & _); [discriminate|discriminate|].
  rewrite H. reflexivity.
Defined.

(** Lines that the follower hands over while the log is filtered are lost
    on Clear: whatever was delivered in between, Clear puts back the log as
    it was when Show Matches was pressed. *)
Theorem lines_arriving_while_filtered_are_dropped
    (a : LogTailApp) (acts : list action) :
  search_input a <> [] ->
  kept_lines a <> [] ->
  log_display (deliver acts (show_all_matches a))
    = join (kept_lines a) ++ concat (appended acts) /\
  log_display (clear_search (deliver acts (show_all_matches a)))
    = log_display a.
Proof.
  intros Hs Hk.
  assert (Ha1 : show_all_matches a
                = set_status_label (ShowingMatching (length (kept_lines a)))
                    (set_log_display (join (kept_lines a))
                       (set_all_log_text (log_display a) a))).
  { rewrite (show_all_matches_unfold a Hs).
    destruct (kept_lines a); [congruence|reflexivity]. }
  split.
  - rewrite deliver_display, Ha1. reflexivity.
  - rewrite clear_search_display, deliver_all_log_text, Ha1.
    cbn [all_log_text set_status_label set_log_display set_all_log_text].
    destruct (log_display a) as [|c t] eqn:Ed; [|reflexivity].
    now rewrite (kept_lines_of_empty_log a Hs Ed) in Hk.
Qed.

(** The line [bye] arrives while only the lines with [b] are shown. *)
Lemma lines_arriving_while_filtered_are_dropped_witness :
  log_display
    (clear_search
       (deliver [Schedule (AppendText (ln "bye"))]
          (show_all_matches
             (set_search_input (text_of "b")
                (set_log_display (ln "abc" ++ ln "xyz") init)))))
  = ln "abc" ++ ln "xyz".
Proof.
  destruct (lines_arriving_while_filtered_are_dropped
              (set_search_input (text_of "b")
                 (set_log_display (ln "abc" ++ ln "xyz") init))
              [Schedule (AppendText (ln "bye"))])
    as (_ & H); [discriminate|discriminate|exact H].
Defined.

(** Stop and Clear does not forget the text put aside by Show Matches: when
    it is pressed while the log is filtered, a later Clear fills the display
    with the whole old log although no file is loaded any more. *)
Theorem clear_after_stop_brings_old_log_back (a : LogTailApp) :
  search_input a <> [] ->
  kept_lines a <> [] ->
  log_display (stop_and_clear (show_all_matches a)) = [] /\
  log_display (clear_search (stop_and_clear (show_all_matches a)))
    = log_display a /\
  file_path (clear_search (stop_and_clear (show_all_matches a))) = None /\
  file_label (clear_search (stop_and_clear (show_all_matches a))) = NoFileLoaded.
Proof.
  intros Hs Hk.
  assert (Ha1 : show_all_matches a
                = set_status_label (ShowingMatching (length (kept_lines a)))
                    (set_log_display (join (kept_lines a))
                       (set_all_log_text (log_display a) a))).
  { rewrite (show_all_matches_unfold a Hs).
    destruct (kept_lines a); [congruence|reflexivity]. }
  rewrite Ha1. split; [reflexivity|].
  destruct (log_display a) as [|c t] eqn:Ed.
  - now rewrite (kept_lines_of_empty_log a Hs Ed) in Hk.
  - unfold clear_search, stop_and_clear.
    cbn [all_log_text log_display file_path file_label set_status_label
         set_log_display set_all_log_text set_stop_following set_file_path
         set_file_label set_search_input set_search_matches
         set_current_match_index].
    repeat split; reflexivity.
Qed.

Lemma clear_after_stop_brings_old_log_back_witness :
  log_display
    (clear_search
       (stop_and_clear
          (show_all_matches
             (set_search_input (text_of "b")
                (set_log_display (ln "abc" ++ ln "xyz") init)))))
  = ln "abc" ++ ln "xyz".
Proof.
  destruct (clear_after_stop_brings_old_log_back
              (set_search_input (text_of "b")
                 (set_log_display (ln "abc" ++ ln "xyz") init)))
    as (_ & H & _); [discriminate|discriminate|exact H].
Defined.

(** ** The viewer: loading and following *)

Section Loading.

Lemma start_following_keeps (alive : bool) (a : LogTailApp) :
  log_display (start_following alive a) = log_display a /\
  all_log_text (start_following alive a) = all_log_text a /\
  file_path (start_following alive a) = file_path a /\
  search_input (start_following alive a) = search_input a.
Proof.
  unfold start_following.
  destruct (file_path a) as [[|c p]|] eqn:E;
    [|destruct (follow_thread a && alive)|];
    repeat split; cbn; auto.
Qed.

End Loading.

(** Loading a file replaces the log by the file's content and forgets any
    text put aside by Show Matches on the previous file, so that a later Clear
    leaves the new content in place. A file that cannot be opened or read
    changes the status line only: the log, the loaded path and the text put
    aside stay as they were. *)
Theorem load_file_resets_filter
    (path t : text) (e : errno) (alive : bool) (a : LogTailApp) :
  log_display (load_file path (Got t) alive a) = t /\
  file_path (load_file path (Got t) alive a) = Some path /\
  search_input (load_file path (Got t) alive a) = [] /\
  log_display (clear_search (load_file path (Got t) alive a)) = t /\
  load_file path (Fails e) alive a = set_status_label (ErrorOpening e) a /\
  log_display (clear_search (load_file path (Fails e) alive a))
    = log_display (clear_search a).
Proof.
  assert (H : log_display (load_file path (Got t) alive a) = t /\
              all_log_text (load_file path (Got t) alive a) = [] /\
              file_path (load_file path (Got t) alive a) = Some path /\
              search_input (load_file path (Got t) alive a) = []).
  { unfold load_file.
    cbn [follow_checkbox set_status_label set_search_input set_all_log_text
         set_log_display set_file_label set_file_path].
    destruct (follow_checkbox a).
    - destruct (start_following_keeps alive
        (set_status_label (Loaded path)
           (set_search_input []
              (set_all_log_text []
                 (set_log_display t
                    (set_file_label (FileName (basename path))
                       (set_file_path (Some path) a)))))))
        as (-> & -> & -> & ->).
      repeat split.
    - repeat split. }
  destruct H as (Hd & Ha & Hp & Hs).
  repeat split; try assumption.
  - rewrite clear_search_display, Ha. exact Hd.
  - rewrite !clear_search_display. reflexivity.
Qed.

(** The follow checkbox is switched off and on again while the follower
    thread is still alive. The second click starts nothing, because a live
    thread exists, and leaves the stop flag set; the thread ends at its next
    loop test. The checkbox is on and nothing follows the file. Had the
    thread already ended at the second click, a new one would have been
    started with the flag cleared. *)
Theorem follow_switched_off_and_on_does_not_resume
    (a : LogTailApp) (c : ascii) (p : text) (alive : bool) :
  file_path a = Some (c :: p) ->
  follow_thread a = true ->
  follow_checkbox (click_follow true true (click_follow false alive a)) = true /\
  stop_following (click_follow true true (click_follow false alive a)) = true /\
  threads_started (click_follow true true (click_follow false alive a))
    = threads_started a /\
  (forall (t : tick) (ticks : list tick) (pos : nat),
     stop_seen t
       = stop_following (click_follow true true (click_follow false alive a)) ->
     follow_loop (t :: ticks) pos = ([], Finished)) /\
  stop_following (click_follow true false (click_follow false alive a)) = false /\
  threads_started (click_follow true false (click_follow false alive a))
    = S (threads_started a).
Proof.
  intros Hp Ht.
  unfold click_follow, toggle_follow, start_following.
  cbn [file_path follow_thread set_follow_checkbox set_stop_following].
  rewrite Hp, Ht. cbn.
  repeat split. intros t ticks pos ->. reflexivity.
Qed.

Lemma follow_switched_off_and_on_does_not_resume_witness :
  stop_following
    (click_follow true true
       (click_follow false true
          (click_follow true false
             (load_file (text_of "app.log") (Got (ln "a")) false init))))
  = true.
Proof.
  destruct (follow_switched_off_and_on_does_not_resume
              (click_follow true false
                 (load_file (text_of "app.log") (Got (ln "a")) false init))
              "a"%char (text_of "pp.log") true)
    as (_ & H & _); [reflexivity|reflexivity|exact H].
Defined.

Section Follower.



Lemma follow_loop_app (before after : list tick) (pos p : nat) (acts : list action) :
  follow_loop before pos = (acts, Running p) ->
  follow_loop (before ++ after) pos
  = (acts ++ fst (follow_loop after p), snd (follow_loop after p)).
Proof.
  revert pos acts. induction before as [|t before IH]; intros pos acts.
  - simpl. intros [= <- <-]. now destruct (follow_loop after pos).
  - cbn [follow_loop List.app]. destruct (stop_seen t); [discriminate|].
    destruct (line_at t) as [f|e]; [|discriminate].
    destruct (readline f pos) as [line pos1].
    destruct (follow_loop before pos1) as [acts1 th1] eqn:E1.
    destruct line as [|c line]; intros [= <- ->];
      rewrite (IH pos1 acts1 E1); reflexivity.
Qed.




End Follower.

Section Delivery.


Lemma deliver_app (x y : list action) (a : LogTailApp) :
  deliver (x ++ y) a = deliver y (deliver x a).
Proof.
  revert a. induction x as [|[cb|] x IH]; intros a; simpl; now rewrite ?IH.
Qed.



End Delivery.




(** The follower ends at the first turn in which it sees the stop flag set
    or a file operation fails, and later turns play no part. On a failure, of
    a read or of the [open], the thread schedules one callback and ends. The
    failure never reaches the status line: when the main thread calls that
    callback it raises [NameError], and the state stays as the lines handed
    over before had left it. *)
Theorem follower_ends_on_stop_or_failure
    (a : LogTailApp) (before after : list tick) (t : tick) (pos p : nat)
    (acts : list action) (e : errno) :
  follow_loop before pos = (acts, Running p) ->
  (stop_seen t = true ->
   follow_loop (before ++ t :: after) pos = (acts, Finished)) /\
  (stop_seen t = false -> line_at t = Fails e ->
   follow_loop (before ++ t :: after) pos
     = (acts ++ [Schedule (FollowFailed e)], Finished) /\
   call (FollowFailed e) (deliver acts a) = NameError /\
   deliver (acts ++ [Schedule (FollowFailed e)]) a = deliver acts a) /\
  _follow_file (Fails e) (before ++ t :: after)
    = ([Schedule (FollowFailed e)], Finished) /\
  deliver [Schedule (FollowFailed e)] a = a.
Proof.
  intros Hb. split; [|split; [|split]].
  - intros Hstop. rewrite (follow_loop_app _ _ _ _ _ Hb).
    cbn [follow_loop]. rewrite Hstop. cbn. now rewrite app_nil_r.
  - intros Hgo Hfail. repeat split.
    + rewrite (follow_loop_app _ _ _ _ _ Hb).
      cbn [follow_loop]. rewrite Hgo, Hfail. reflexivity.
    + rewrite deliver_app. reflexivity.
  - reflexivity.
  - reflexivity.
Qed.

(** One line is handed over, then the stop flag is seen. *)
Lemma follower_ends_on_stop_or_failure_witness :
  follow_loop ([reading (ln "a")]
               ++ {| stop_seen := true; line_at := Got (ln "a" ++ ln "b") |}
               :: [reading (ln "a" ++ ln "b")]) 0
  = ([Schedule (AppendText (ln "a"))], Finished).
Proof.
  destruct (follower_ends_on_stop_or_failure init [reading (ln "a")]
              [reading (ln "a" ++ ln "b")]
              {| stop_seen := true; line_at := Got (ln "a" ++ ln "b") |}
              0 2 [Schedule (AppendText (ln "a"))] EIO)
    as (H & _); [reflexivity|].
  apply H. reflexivity.
Defined.


(** ** The viewer: the path box and the case setting *)

Section PathBox.







End PathBox.



(** Changing the case setting with a term in the search box restarts the
    walk through the matches: the next press of Find Next shows the first
    match of the search under the new setting, as match 1. *)
Theorem case_toggle_restarts_at_first_match (a : LogTailApp) (value : bool) :
  search_input a <> [] ->
  occurrences (searched_term (on_case_sensitive_toggle value a))
    (searched_text (on_case_sensitive_toggle value a)) <> [] ->
  case_sensitive (on_case_sensitive_toggle value a) = value /\
  cursor (find_next (on_case_sensitive_toggle value a))
    = (nth 0 (occurrences (searched_term (on_case_sensitive_toggle value a))
                (searched_text (on_case_sensitive_toggle value a))) 0, 0) /\
  status_label (find_next (on_case_sensitive_toggle value a))
    = MatchOf 1 (length (occurrences
                           (searched_term (on_case_sensitive_toggle value a))
                           (searched_text (on_case_sensitive_toggle value a)))).
Proof.
  intros Hs Ho. set (a' := on_case_sensitive_toggle value a) in *.
  assert (Hfacts : case_sensitive a' = value /\ search_input a' = search_input a /\
                   current_match_index a' = 0).
  { unfold a', on_case_sensitive_toggle. cbn [search_input set_case_sensitive].
    destruct (search_input a) as [|c t] eqn:E; [congruence|].
    repeat split. exact E. }
  destruct Hfacts as (Hc & Hsi & Hidx).
  assert (Hs' : search_input a' <> []) by now rewrite Hsi.
  destruct (occurrences (searched_term a') (searched_text a')) as [|m ms] eqn:Eo;
    [congruence|].
  destruct (find_next_step a' m ms Hs' Eo) as (Hcur & Hst & _).
  rewrite Hidx in Hcur, Hst. cbn [Nat.leb length] in Hcur, Hst.
  repeat split; assumption.
Qed.

(** [Bo] stands once in [bob Bob] as typed, twice when case is ignored. *)
Lemma case_toggle_restarts_at_first_match_witness :
  cursor (find_next
            (on_case_sensitive_toggle true
               (set_current_match_index 1
                  (set_search_input (text_of "Bo")
                     (set_log_display (text_of "bob Bob") init)))))
  = (4, 0).
Proof.
  destruct (case_toggle_restarts_at_first_match
              (set_current_match_index 1
                 (set_search_input (text_of "Bo")
                    (set_log_display (text_of "bob Bob") init))) true)
    as (_ & H & _); [discriminate|discriminate|].
  rewrite H. reflexivity.
Defined.
